(** * Voice transcription service: [voice_server.py]

    A shallow embedding of the websocket session handler
    [transcribe_handler], of the JSON text it writes back, and of the
    process-level control flow of [main], together with the properties
    the specification states about them.

    Everything outside the file (the websocket transport, the speech
    recogniser, the console) is reached through three calls:
    [websocket.recv] behind [async for], [recognizer.recognize_google]
    and [websocket.send].  They are kept abstract: each is an oracle on
    an opaque world state, and each call is recorded in a trace. *)

From Stdlib Require Import String Ascii ZArith List Bool Lia PeanoNat.
Import ListNotations.
Local Open Scope Z_scope.

(** ** Python values used by the handler *)

(** A Python [str] is a sequence of code points. *)
Definition str := list Z.

(** A Python [bytes] object, one [Z] in 0..255 per byte. *)
Definition bytes := list Z.

Definition of_ascii (a : ascii) : Z := Z.of_N (N_of_ascii a).

(** Literal text of the source, as a Python [str]. *)
Definition lit (s : string) : str := map of_ascii (list_ascii_of_string s).

(** The code points a [str] is made of. *)
Definition code_point (c : Z) : Prop := 0 <= c < 0x110000.

Definition is_high_surrogate (c : Z) : bool := (0xd800 <=? c) && (c <=? 0xdbff).
Definition is_low_surrogate (c : Z) : bool := (0xdc00 <=? c) && (c <=? 0xdfff).

(** No high surrogate directly followed by a low one. *)
Fixpoint unpaired (s : str) : bool :=
  match s with
  | [] => true
  | c :: rest =>
      match rest with
      | d :: _ => negb (is_high_surrogate c && is_low_surrogate d)
      | [] => true
      end && unpaired rest
  end.

(** A text as [json.loads] and the UTF-8 decoder build them, and so as
    the recogniser returns them: code points, among which a high and a
    low surrogate never stand next to each other (the decoders join
    such a pair into one code point).  Every sequence of Unicode scalar
    values is one. *)
Definition text_string (s : str) : Prop :=
  Forall code_point s /\ unpaired s = true.

(** What one websocket message carries: websockets hands a binary frame
    to the handler as [bytes] and a text frame as [str]. *)
Inductive frame :=
| Binary (data : bytes)
| Text (data : str).

(** The exception classes that can reach the handler.  The detail of a
    [RequestError] is the message speech_recognition composes for a
    failed request from the reason phrase of the HTTP response or the
    text of the socket error, which are ASCII or Latin-1: a [string],
    one character per byte. *)
Inductive exn :=
| UnknownValueError                 (* speech_recognition *)
| RequestError (detail : string)    (* speech_recognition *)
| ConnectionClosedOK                (* websockets.exceptions *)
| ConnectionClosedError             (* websockets.exceptions *)
| AssertionError (detail : str)
| InvalidStateError                 (* asyncio *)
| UnicodeEncodeError                (* builtins *)
| OtherException (cls : string) (detail : str).

(** [isinstance(e, websockets.exceptions.ConnectionClosed)]: the base
    class of [ConnectionClosedOK] and [ConnectionClosedError]. *)
Definition is_ConnectionClosed (e : exn) : bool :=
  match e with
  | ConnectionClosedOK | ConnectionClosedError => true
  | _ => false
  end.

(** [sr.AudioData] *)
Record AudioData := mkAudioData {
  frame_data : frame;
  sample_rate : Z;
  sample_width : Z
}.

(** [AudioData.__init__]: two assertions, then the fields are stored.
    The width being an integer, [sample_width % 1 == 0] holds. *)
Definition AudioData_init (fd : frame) (rate width : Z) : exn + AudioData :=
  if negb (0 <? rate) then
    inl (AssertionError (lit "Sample rate must be a positive integer"))
  else if negb ((1 <=? width) && (width <=? 4)) then
    inl (AssertionError (lit "Sample width must be between 1 and 4 inclusive"))
  else inr (mkAudioData fd rate width).

(** ** [json.dumps] on a dict of strings *)

Module Json.

(** ['0'..'9'], ['a'..'f'] *)
Definition hexdigit (d : Z) : Z := if d <? 10 then 48 + d else 87 + d.

(** ['{0:04x}'.format(n)].  The encoder only calls it with
    [n < 0x10000], where the result has exactly four digits. *)
Definition format_04x (n : Z) : str :=
  [ hexdigit (Z.land (Z.shiftr n 12) 15);
    hexdigit (Z.land (Z.shiftr n 8) 15);
    hexdigit (Z.land (Z.shiftr n 4) 15);
    hexdigit (Z.land n 15) ].

Definition backslash : Z := 92.
Definition quote : Z := 34.

(** [ESCAPE_DCT]: the short escapes, and [\u00XX] for the other
    control characters. *)
Definition ESCAPE_DCT (c : Z) : option str :=
  if c =? backslash then Some [backslash; backslash]
  else if c =? quote then Some [backslash; quote]
  else if c =? 8 then Some [backslash; 98]
  else if c =? 12 then Some [backslash; 102]
  else if c =? 10 then Some [backslash; 110]
  else if c =? 13 then Some [backslash; 114]
  else if c =? 9 then Some [backslash; 116]
  else if (0 <=? c) && (c <? 32) then Some ([backslash; 117] ++ format_04x c)
  else None.

(** [ESCAPE_ASCII]: a backslash, a double quote, or anything outside
    the printable ASCII range from space to tilde. *)
Definition ESCAPE_ASCII (c : Z) : bool :=
  (c =? backslash) || (c =? quote) || negb ((32 <=? c) && (c <=? 126)).

(** The [replace] callback of [py_encode_basestring_ascii]. *)
Definition replace (c : Z) : str :=
  match ESCAPE_DCT c with
  | Some s => s
  | None =>
      if c <? 0x10000 then [backslash; 117] ++ format_04x c
      else
        let n := c - 0x10000 in
        let s1 := Z.lor 0xd800 (Z.land (Z.shiftr n 10) 0x3ff) in
        let s2 := Z.lor 0xdc00 (Z.land n 0x3ff) in
        [backslash; 117] ++ format_04x s1 ++ [backslash; 117] ++ format_04x s2
  end.

Definition escape (s : str) : str :=
  flat_map (fun c => if ESCAPE_ASCII c then replace c else [c]) s.

Definition py_encode_basestring_ascii (s : str) : str :=
  [quote] ++ escape s ++ [quote].

(** [', '.join(items)] *)
Fixpoint join (sep : str) (items : list str) : str :=
  match items with
  | [] => []
  | [x] => x
  | x :: rest => x ++ sep ++ join sep rest
  end.

(** [json.dumps(d)] for a dict [d] whose keys and values are strings,
    with the default separators and [ensure_ascii=True]. *)
Definition dumps (d : list (str * str)) : str :=
  lit "{"
  ++ join (lit ", ")
       (map (fun kv => py_encode_basestring_ascii (fst kv) ++ lit ": "
                       ++ py_encode_basestring_ascii (snd kv)) d)
  ++ lit "}".

(** *** Reading a JSON object back (RFC 8259, as [json.loads] does) *)

Definition unhex (c : Z) : option Z :=
  if (48 <=? c) && (c <=? 57) then Some (c - 48)
  else if (97 <=? c) && (c <=? 102) then Some (c - 87)
  else if (65 <=? c) && (c <=? 70) then Some (c - 55)
  else None.

(** Four hex digits: [int(s[pos:pos+4], 16)]. *)
Definition hex4 (s : str) : option (Z * str) :=
  match s with
  | a :: b :: c :: d :: rest =>
      match unhex a, unhex b, unhex c, unhex d with
      | Some a, Some b, Some c, Some d =>
          Some (((a * 16 + b) * 16 + c) * 16 + d, rest)
      | _, _, _, _ => None
      end
  | _ => None
  end.

(** [s[end:end + 2] == '\\u'] *)
Definition starts_with_u (s : str) : bool :=
  match s with
  | a :: b :: _ => (a =? backslash) && (b =? 117)
  | _ => false
  end.

(** What follows a backslash inside a string literal.  After [\uXXXX]
    for a high surrogate the reader looks for a second [\uXXXX], and
    joins the two when the second is a low surrogate. *)
Definition read_escape (s : str) : option (Z * str) :=
  match s with
  | [] => None
  | c :: rest =>
      if c =? quote then Some (quote, rest)
      else if c =? backslash then Some (backslash, rest)
      else if c =? 47 then Some (47, rest)
      else if c =? 98 then Some (8, rest)
      else if c =? 102 then Some (12, rest)
      else if c =? 110 then Some (10, rest)
      else if c =? 114 then Some (13, rest)
      else if c =? 116 then Some (9, rest)
      else if c =? 117 then
        match hex4 rest with
        | None => None
        | Some (uni, rest1) =>
            if is_high_surrogate uni && starts_with_u rest1 then
              match hex4 (skipn 2 rest1) with
              | None => None
              | Some (uni2, rest3) =>
                  if is_low_surrogate uni2 then
                    Some (0x10000 +
                          Z.lor (Z.shiftl (uni - 0xd800) 10) (uni2 - 0xdc00),
                          rest3)
                  else Some (uni, rest1)
              end
            else Some (uni, rest1)
        end
      else None
  end.

(** Whether a [\uXXXX] escape that the reader would take for the second
    half of a pair stands at the head of [s]. *)
Definition joining (s : str) : bool :=
  starts_with_u s &&
  match hex4 (skipn 2 s) with
  | Some (uni2, _) => is_low_surrogate uni2
  | None => true
  end.

(** The characters of a string literal up to its closing quote. *)
Fixpoint read_chars (fuel : nat) (s : str) : option (str * str) :=
  match fuel with
  | O => None
  | S fuel' =>
      match s with
      | [] => None
      | c :: rest =>
          if c =? quote then Some ([], rest)
          else if c =? backslash then
            match read_escape rest with
            | None => None
            | Some (ch, rest1) =>
                match read_chars fuel' rest1 with
                | Some (chars, rest2) => Some (ch :: chars, rest2)
                | None => None
                end
            end
          else if c <? 32 then None
          else
            match read_chars fuel' rest with
            | Some (chars, rest2) => Some (c :: chars, rest2)
            | None => None
            end
      end
  end.

Definition is_ws (c : Z) : bool :=
  (c =? 32) || (c =? 9) || (c =? 10) || (c =? 13).

Fixpoint skip_ws (s : str) : str :=
  match s with
  | c :: rest => if is_ws c then skip_ws rest else s
  | [] => []
  end.

Definition read_string (fuel : nat) (s : str) : option (str * str) :=
  match skip_ws s with
  | c :: rest => if c =? quote then read_chars fuel rest else None
  | [] => None
  end.

(** [key : value] members after the opening brace, up to the closing
    one; [first] tells whether a member may be absent. *)
Fixpoint read_members (fuel : nat) (first : bool) (s : str)
  : option (list (str * str) * str) :=
  match fuel with
  | O => None
  | S fuel' =>
      match skip_ws s with
      | c :: rest =>
          if (c =? 125) && first then Some ([], rest)
          else
            match read_string fuel (skip_ws s) with
            | None => None
            | Some (k, s1) =>
                match skip_ws s1 with
                | c1 :: s2 =>
                    if c1 =? 58 then
                      match read_string fuel s2 with
                      | None => None
                      | Some (v, s3) =>
                          match skip_ws s3 with
                          | c3 :: s4 =>
                              if c3 =? 125 then Some ([(k, v)], s4)
                              else if c3 =? 44 then
                                match read_members fuel' false s4 with
                                | Some (more, s5) => Some ((k, v) :: more, s5)
                                | None => None
                                end
                              else None
                          | [] => None
                          end
                      end
                    else None
                | [] => None
                end
            end
      | [] => None
      end
  end.

(** A whole text that is one JSON object with string values: the list
    of its members, in order. *)
Definition loads_object (s : str) : option (list (str * str)) :=
  match skip_ws s with
  | c :: rest =>
      if c =? 123 then
        match read_members (S (List.length s)) true rest with
        | Some (members, tail) =>
            match skip_ws tail with
            | [] => Some members
            | _ => None
            end
        | None => None
        end
      else None
  | [] => None
  end.

End Json.

(** [str.encode("utf-8")], which websockets applies to a [str] passed
    to [send].  Surrogates are not encodable. *)
Definition utf8_char (c : Z) : option bytes :=
  if c <? 0 then None
  else if c <? 0x80 then Some [c]
  else if c <? 0x800 then
    Some [Z.lor 0xC0 (Z.shiftr c 6); Z.lor 0x80 (Z.land c 0x3F)]
  else if (0xD800 <=? c) && (c <=? 0xDFFF) then None
  else if c <? 0x10000 then
    Some [Z.lor 0xE0 (Z.shiftr c 12);
          Z.lor 0x80 (Z.land (Z.shiftr c 6) 0x3F);
          Z.lor 0x80 (Z.land c 0x3F)]
  else if c <? 0x110000 then
    Some [Z.lor 0xF0 (Z.shiftr c 18);
          Z.lor 0x80 (Z.land (Z.shiftr c 12) 0x3F);
          Z.lor 0x80 (Z.land (Z.shiftr c 6) 0x3F);
          Z.lor 0x80 (Z.land c 0x3F)]
  else None.

Fixpoint utf8_encode (s : str) : option bytes :=
  match s with
  | [] => Some []
  | c :: rest =>
      match utf8_char c, utf8_encode rest with
      | Some b, Some bs => Some (b ++ bs)
      | _, _ => None
      end
  end.



(** Whether [str.encode("utf-8")] accepts a text. *)
Definition encodable (s : str) : bool :=
  match utf8_encode s with
  | Some _ => true
  | None => false
  end.


(** ** Calls to the outside, traces, and the monad the handler runs in *)

(** A connection object ([websocket] in the source). *)
Definition conn := nat.

(** What a call to the outside does: it returns a value, raises, or
    never completes (a receive on a connection that stays open and
    silent, a recognition request that is never answered). *)
Inductive outcome (A : Type) :=
| Returns (a : A)
| Raises (e : exn)
| Never.
Arguments Returns {A} a.
Arguments Raises {A} e.
Arguments Never {A}.

(** One record per interaction with the outside, in program order. *)
Inductive event :=
| Printed (line : str)
| Received (ws : conn) (r : outcome frame)
| Recognition (audio : AudioData) (r : outcome str)
| Sending (ws : conn) (message : str) (r : outcome unit).

(** How a computation that did not return a value stands. *)
Inductive halt :=
| Raise (e : exn)   (* an exception is propagating *)
| Parked            (* suspended at an [await] that never completes *)
| Stalled           (* inside a plain call that never returns *)
| Unfinished.       (* the loop is still running when the fuel ends *)

Inductive status (A : Type) :=
| Ret (a : A)
| Stop (h : halt).
Arguments Ret {A} a.
Arguments Stop {A} h.

Section Monad.
Variable World : Type.

Definition M (A : Type) : Type := World -> list event * status A * World.

Definition ret {A} (a : A) : M A := fun w => ([], Ret a, w).

Definition bind {A B} (m : M A) (k : A -> M B) : M B :=
  fun w =>
    match m w with
    | (tr, Ret a, w1) =>
        match k a w1 with
        | (tr2, s, w2) => (tr ++ tr2, s, w2)
        end
    | (tr, Stop h, w1) => (tr, Stop h, w1)
    end.

Definition raise {A} (e : exn) : M A := fun w => ([], Stop (Raise e), w).

(** [try: m except ...:] where [handlers e] is the body of the first
    [except] clause that matches [e], if there is one. *)
Definition try_except {A} (m : M A) (handlers : exn -> option (M A)) : M A :=
  fun w =>
    match m w with
    | (tr, Stop (Raise e), w1) =>
        match handlers e with
        | Some h =>
            match h w1 with
            | (tr2, s, w2) => (tr ++ tr2, s, w2)
            end
        | None => (tr, Stop (Raise e), w1)
        end
    | r => r
    end.

(** [print(line)] on the standard output, a text stream that encodes
    to UTF-8 and is strict about it: the line is written, unless it
    cannot be encoded, in which case [print] raises
    [UnicodeEncodeError] and nothing of the line is written. *)
Definition print (line : str) : M unit :=
  fun w =>
    if encodable line then ([Printed line], Ret tt, w)
    else ([], Stop (Raise UnicodeEncodeError), w).

(** [await call(...)]: the coroutine is suspended until the call
    completes; if it never does, the coroutine stays parked and the
    event loop is free to run other tasks. *)
Definition await {A} (log : outcome A -> event)
           (call : World -> outcome A * World) : M A :=
  fun w =>
    match call w with
    | (Returns a, w1) => ([log (Returns a)], Ret a, w1)
    | (Raises e, w1) => ([log (Raises e)], Stop (Raise e), w1)
    | (Never, w1) => ([log Never], Stop Parked, w1)
    end.

(** [call(...)] without [await]: control stays in the coroutine until
    the call returns; if it never does, neither the coroutine nor the
    event loop that runs it gets control back. *)
Definition call_sync {A} (log : outcome A -> event)
           (call : World -> outcome A * World) : M A :=
  fun w =>
    match call w with
    | (Returns a, w1) => ([log (Returns a)], Ret a, w1)
    | (Raises e, w1) => ([log (Raises e)], Stop (Raise e), w1)
    | (Never, w1) => ([log Never], Stop Stalled, w1)
    end.

Definition lift_init {A} (r : exn + A) : M A :=
  match r with
  | inl e => raise e
  | inr a => ret a
  end.
End Monad.

Arguments ret {World A} a.
Arguments bind {World A B} m k.
Arguments raise {World A} e.
Arguments try_except {World A} m handlers.
Arguments print {World} line.
Arguments await {World A} log call.
Arguments call_sync {World A} log call.
Arguments lift_init {World A} r.

Declare Scope session_scope.
Delimit Scope session_scope with session.
Notation "x <- m ;; k" := (bind m (fun x => k))
  (at level 61, m at next level, right associativity) : session_scope.
Notation "m ;;; k" := (bind m (fun _ => k))
  (at level 61, right associativity) : session_scope.

(** ** The session handler *)

Section Session.
Variable World : Type.

(** [websocket.recv()], [recognizer.recognize_google(audio_data)] and
    [websocket.send(message)]. *)
Variable ws_recv : conn -> World -> outcome frame * World.
Variable recognize_google : AudioData -> World -> outcome str * World.
Variable ws_send : conn -> str -> World -> outcome unit * World.

Local Open Scope session_scope.

(** One step of [websocket.__aiter__]: the library loops on
    [yield await self.recv()] and ends the iteration on
    [ConnectionClosedOK]; any other exception leaves the iterator.
    [None] is the end of the iteration. *)
Definition ws_anext (websocket : conn) : M World (option frame) :=
  try_except
    (message <- await (Received websocket) (ws_recv websocket) ;;
     ret (Some message))
    (fun e => match e with
              | ConnectionClosedOK => Some (ret None)
              | _ => None
              end).

(** The body of the [async for] loop, lines 14 to 23. *)
Definition loop_body (websocket : conn) (audio_chunk : frame) : M World unit :=
  try_except
    (audio_data <- lift_init (AudioData_init audio_chunk 16000 2) ;;
     text <- call_sync (Recognition audio_data) (recognize_google audio_data) ;;
     print (lit "Recognized: " ++ text) ;;;
     await (Sending websocket (Json.dumps [(lit "transcript", text)]))
           (ws_send websocket (Json.dumps [(lit "transcript", text)])))
    (fun e => match e with
              | UnknownValueError =>
                  Some (print (lit "Could not understand audio."))
              | RequestError detail =>
                  Some (print (lit "Google API Error: " ++ lit detail))
              | _ => None
              end).

(** [async for audio_chunk in websocket: ...], lines 13 to 23.  The
    fuel bounds the number of iterations observed. *)
Fixpoint async_for (fuel : nat) (websocket : conn) : M World unit :=
  match fuel with
  | O => fun w => ([], Stop Unfinished, w)
  | S fuel' =>
      item <- ws_anext websocket ;;
      match item with
      | None => ret tt
      | Some audio_chunk =>
          loop_body websocket audio_chunk ;;;
          async_for fuel' websocket
      end
  end.

(** [transcribe_handler(websocket)], lines 10 to 25. *)
Definition transcribe_handler (fuel : nat) (websocket : conn) : M World unit :=
  print (lit "Connection established for voice transcription.") ;;;
  try_except
    (async_for fuel websocket)
    (fun e => if is_ConnectionClosed e
              then Some (print (lit "Connection for voice transcription closed."))
              else None).

End Session.

Arguments ws_anext {World} ws_recv websocket.
Arguments loop_body {World} recognize_google ws_send websocket audio_chunk.
Arguments async_for {World} ws_recv recognize_google ws_send fuel websocket.
Arguments transcribe_handler {World} ws_recv recognize_google ws_send fuel websocket.

(** ** Sessions on one event loop *)

Section EventLoop.
Variable World : Type.
Variable ws_recv : conn -> World -> outcome frame * World.
Variable recognize_google : AudioData -> World -> outcome str * World.
Variable ws_send : conn -> str -> World -> outcome unit * World.

Local Open Scope session_scope.

(** One resumption of a session task by the event loop: the task was
    suspended at [async for]; it takes the next item, runs the loop
    body on it, and is suspended at [async for] again.  The result
    tells whether the task is still in its loop.  All of it runs inside
    the outer [try] of the handler. *)
Definition resume (websocket : conn) : M World bool :=
  try_except
    (item <- ws_anext ws_recv websocket ;;
     match item with
     | None => ret false
     | Some audio_chunk =>
         loop_body recognize_google ws_send websocket audio_chunk ;;;
         ret true
     end)
    (fun e => if is_ConnectionClosed e
              then Some (print (lit "Connection for voice transcription closed.") ;;;
                         ret false)
              else None).

(** A session run as a sequence of resumptions. *)
Fixpoint session_steps (fuel : nat) (websocket : conn) : M World unit :=
  match fuel with
  | O => fun w => ([], Stop Unfinished, w)
  | S fuel' =>
      continue <- resume websocket ;;
      if continue then session_steps fuel' websocket else ret tt
  end.

(** The asyncio event loop, which runs every session task of
    [websockets.serve] on one thread.  [ready] is the order in which it
    finds tasks ready to be resumed; [ended] holds the sessions whose
    task is over.  A task that returns, raises or parks at an [await]
    gives control back, and the loop goes on to the next ready task.  A
    task stalled inside a plain call does not give control back: the
    loop runs nothing after it. *)
Fixpoint event_loop (ready : list conn) (ended : list conn)
  : M World (list conn) :=
  match ready with
  | [] => ret ended
  | ws :: ready' =>
      if existsb (Nat.eqb ws) ended then event_loop ready' ended
      else
        fun w =>
          match resume ws w with
          | (tr, Ret true, w1) =>
              match event_loop ready' ended w1 with
              | (tr2, s, w2) => (tr ++ tr2, s, w2)
              end
          | (tr, Stop Stalled, w1) => (tr, Stop Stalled, w1)
          | (tr, _, w1) =>
              match event_loop ready' (ws :: ended) w1 with
              | (tr2, s, w2) => (tr ++ tr2, s, w2)
              end
          end
  end.

End EventLoop.

Arguments resume {World} ws_recv recognize_google ws_send websocket.
Arguments session_steps {World} ws_recv recognize_google ws_send fuel websocket.
Arguments event_loop {World} ws_recv recognize_google ws_send ready ended.

(** ** The process: [main] and the termination signal *)

(** [asyncio.Future._state] *)
Inductive fut_state := PENDING | CANCELLED | FINISHED.

(** The two futures [main] creates: the one bound to [stop] on line 30
    and the anonymous [asyncio.Future()] of line 35. *)
Inductive future_id := stop_future | anonymous_future.

Definition future_id_eqb (a b : future_id) : bool :=
  match a, b with
  | stop_future, stop_future => true
  | anonymous_future, anonymous_future => true
  | _, _ => false
  end.

Record process := mkProcess {
  stop : fut_state;                 (* state of [stop] *)
  anonymous : fut_state;            (* state of the future of line 35 *)
  on_sigterm : option future_id;    (* future whose [set_result] is the
                                       registered SIGTERM callback *)
  listening : bool;                 (* inside [async with websockets.serve] *)
  main_awaits : option future_id;   (* where [main] is suspended; [None]
                                       once it has returned *)
  sessions : list conn              (* connections accepted so far *)
}.

Definition future_state (f : future_id) (p : process) : fut_state :=
  match f with
  | stop_future => stop p
  | anonymous_future => anonymous p
  end.

Definition set_future_state (f : future_id) (s : fut_state) (p : process) : process :=
  match f with
  | stop_future =>
      mkProcess s (anonymous p) (on_sigterm p) (listening p) (main_awaits p) (sessions p)
  | anonymous_future =>
      mkProcess (stop p) s (on_sigterm p) (listening p) (main_awaits p) (sessions p)
  end.

(** [main] resumes after its [await]: it leaves the [async with] block,
    which closes the server, and returns. *)
Definition main_resumes (p : process) : process :=
  mkProcess (stop p) (anonymous p) (on_sigterm p) false None (sessions p).

(** [Future.set_result]: only a pending future takes a result; then the
    task awaiting that future is woken. *)
Definition set_result (f : future_id) (p : process) : exn + process :=
  match future_state f p with
  | PENDING =>
      let p1 := set_future_state f FINISHED p in
      match main_awaits p1 with
      | Some g => if future_id_eqb f g then inr (main_resumes p1) else inr p1
      | None => inr p1
      end
  | _ => inl InvalidStateError
  end.

(** The statements of [main], as updates of the process. *)

(** Line 30, [stop = loop.create_future()]: a pending future. *)
Definition create_stop (p : process) : process :=
  set_future_state stop_future PENDING p.

(** Line 31, [loop.add_signal_handler(signal.SIGTERM, f.set_result, None)]. *)
Definition add_signal_handler (f : future_id) (p : process) : process :=
  mkProcess (stop p) (anonymous p) (Some f) (listening p) (main_awaits p)
            (sessions p).

(** Line 33, entering [async with websockets.serve(...)]: the server
    listens. *)
Definition serve (p : process) : process :=
  mkProcess (stop p) (anonymous p) (on_sigterm p) true (main_awaits p)
            (sessions p).

(** Line 35, [await asyncio.Future()]: a fresh pending future is
    created and [main] is suspended on it. *)
Definition await_fresh_future (p : process) : process :=
  mkProcess (stop p) PENDING (on_sigterm p) (listening p)
            (Some anonymous_future) (sessions p).

(** Line 34 prints this line, a rocket and a sentence.  A UTF-8 console
    takes it, so that [main] gets to line 35; the print changes nothing
    in the process. *)
Definition running_line : str :=
  [0x1F680] ++ lit " Python Voice Service is running on ws://localhost:8765".

Definition not_started : process :=
  mkProcess PENDING PENDING None false None [].

(** [main()] run up to its suspension on line 35. *)
Definition main : process :=
  await_fresh_future
    (serve (add_signal_handler stop_future (create_stop not_started))).

(** What reaches the process from outside. *)
Inductive stimulus :=
| SIGTERM
| Connect (c : conn).

(** The default action of SIGTERM, taken when no callback is
    registered: the process is gone, and with it the listener and the
    sessions. *)
Definition killed (p : process) : process :=
  mkProcess (stop p) (anonymous p) None false None [].

(** With a callback registered the signal no longer ends the process:
    the event loop runs the callback; an exception raised by
    a callback is passed to the loop's exception handler, which logs
    it, and is not propagated.  The second component is what was passed
    to that handler. *)
Definition deliver_sigterm (p : process) : process * list exn :=
  match on_sigterm p with
  | None => (killed p, [])
  | Some f =>
      match set_result f p with
      | inr p1 => (p1, [])
      | inl e => (p, [e])
      end
  end.

(** A listening server accepts the connection and starts a session
    task for it. *)
Definition accept (c : conn) (p : process) : process :=
  if listening p then
    mkProcess (stop p) (anonymous p) (on_sigterm p) (listening p)
              (main_awaits p) (sessions p ++ [c])
  else p.

Definition react (p : process) (x : stimulus) : process :=
  match x with
  | SIGTERM => fst (deliver_sigterm p)
  | Connect c => accept c p
  end.

Definition run_process (p : process) (xs : list stimulus) : process :=
  fold_left react xs p.

(** ** Reading a trace *)

(** The trace, the status and the final world of a run. *)
Definition trace_of {World A} (r : list event * status A * World) : list event :=
  fst (fst r).
Definition status_of {World A} (r : list event * status A * World) : status A :=
  snd (fst r).

(** The messages the handler passed to [websocket.send], in order. *)
Fixpoint sent_on (ws : conn) (tr : list event) : list str :=
  match tr with
  | [] => []
  | Sending ws' message _ :: tr' =>
      if Nat.eqb ws' ws then message :: sent_on ws tr' else sent_on ws tr'
  | _ :: tr' => sent_on ws tr'
  end.

(** The audio chunks the handler received, in order. *)
Fixpoint chunks_on (ws : conn) (tr : list event) : list frame :=
  match tr with
  | [] => []
  | Received ws' (Returns chunk) :: tr' =>
      if Nat.eqb ws' ws then chunk :: chunks_on ws tr' else chunks_on ws tr'
  | _ :: tr' => chunks_on ws tr'
  end.

(** The recognition calls and what became of each, in order. *)
Fixpoint recognitions (tr : list event) : list (AudioData * outcome str) :=
  match tr with
  | [] => []
  | Recognition audio r :: tr' => (audio, r) :: recognitions tr'
  | _ :: tr' => recognitions tr'
  end.

Definition is_chunk_on (ws : conn) (e : event) : bool :=
  match e with
  | Received ws' (Returns _) => Nat.eqb ws' ws
  | _ => false
  end.

(** The events up to the next chunk received on [ws]. *)
Fixpoint until_next_chunk (ws : conn) (tr : list event) : list event :=
  match tr with
  | [] => []
  | e :: tr' => if is_chunk_on ws e then [] else e :: until_next_chunk ws tr'
  end.

(** One received chunk with what the session did about it before it
    took the next one: the recognition calls it made, each with its
    result, and the messages it sent. *)
Record exchange := mkExchange {
  chunk : frame;
  heard : list (AudioData * outcome str);
  replies : list str
}.

Fixpoint exchanges (ws : conn) (tr : list event) : list exchange :=
  match tr with
  | [] => []
  | Received ws' (Returns c) :: tr' =>
      if Nat.eqb ws' ws then
        mkExchange c (recognitions (until_next_chunk ws tr'))
                     (sent_on ws (until_next_chunk ws tr'))
        :: exchanges ws tr'
      else exchanges ws tr'
  | _ :: tr' => exchanges ws tr'
  end.

(** The exception an event records, when the call it logs raised. *)
Definition raised_by (ev : event) : option exn :=
  match ev with
  | Received _ (Raises e) => Some e
  | Recognition _ (Raises e) => Some e
  | Sending _ _ (Raises e) => Some e
  | _ => None
  end.

(** ** The shape of a session's trace *)

Definition established_line : str :=
  lit "Connection established for voice transcription.".
Definition closed_line : str :=
  lit "Connection for voice transcription closed.".
Definition recognized_line (text : str) : str := lit "Recognized: " ++ text.

(** The line the inner [except] clauses print for an exception, when
    one of them matches it. *)
Definition diagnostic (e : exn) : option str :=
  match e with
  | UnknownValueError => Some (lit "Could not understand audio.")
  | RequestError detail => Some (lit "Google API Error: " ++ lit detail)
  | _ => None
  end.

(** The audio object the handler builds from a chunk. *)
Definition audio_of (c : frame) : AudioData := mkAudioData c 16000 2.

Definition transcript_message (text : str) : str :=
  Json.dumps [(lit "transcript", text)].

(** What one pass through the loop body leaves in the trace, and how
    the pass ends. *)
Inductive iteration (ws : conn) (c : frame) : list event -> status unit -> Prop :=
| it_sent text :
    encodable (recognized_line text) = true ->
    iteration ws c
      [Recognition (audio_of c) (Returns text); Printed (recognized_line text);
       Sending ws (transcript_message text) (Returns tt)]
      (Ret tt)
| it_send_parked text :
    encodable (recognized_line text) = true ->
    iteration ws c
      [Recognition (audio_of c) (Returns text); Printed (recognized_line text);
       Sending ws (transcript_message text) Never]
      (Stop Parked)
| it_send_raised text e :
    encodable (recognized_line text) = true ->
    diagnostic e = None ->
    iteration ws c
      [Recognition (audio_of c) (Returns text); Printed (recognized_line text);
       Sending ws (transcript_message text) (Raises e)]
      (Stop (Raise e))
| it_send_absorbed text e line :
    encodable (recognized_line text) = true ->
    diagnostic e = Some line ->
    iteration ws c
      [Recognition (audio_of c) (Returns text); Printed (recognized_line text);
       Sending ws (transcript_message text) (Raises e); Printed line]
      (Ret tt)
| it_print_raised text :
    encodable (recognized_line text) = false ->
    iteration ws c
      [Recognition (audio_of c) (Returns text)]
      (Stop (Raise UnicodeEncodeError))
| it_absorbed e line :
    diagnostic e = Some line ->
    iteration ws c [Recognition (audio_of c) (Raises e); Printed line] (Ret tt)
| it_raised e :
    diagnostic e = None ->
    iteration ws c [Recognition (audio_of c) (Raises e)] (Stop (Raise e))
| it_stalled :
    iteration ws c [Recognition (audio_of c) Never] (Stop Stalled).

(** What the [async for] loop leaves in the trace, and how it ends. *)
Inductive loop_run (ws : conn) : list event -> status unit -> Prop :=
| run_unfinished :
    loop_run ws [] (Stop Unfinished)
| run_exhausted :
    loop_run ws [Received ws (Raises ConnectionClosedOK)] (Ret tt)
| run_recv_raised e :
    e <> ConnectionClosedOK ->
    loop_run ws [Received ws (Raises e)] (Stop (Raise e))
| run_recv_parked :
    loop_run ws [Received ws Never] (Stop Parked)
| run_next c body tr s :
    iteration ws c body (Ret tt) ->
    loop_run ws tr s ->
    loop_run ws (Received ws (Returns c) :: body ++ tr) s
| run_broken c body h :
    iteration ws c body (Stop h) ->
    loop_run ws (Received ws (Returns c) :: body) (Stop h).

(** The outer [except ConnectionClosed] clause, applied to the way the
    loop ended. *)
Definition closing (s : status unit) : list event * status unit :=
  match s with
  | Stop (Raise e) =>
      if is_ConnectionClosed e then ([Printed closed_line], Ret tt)
      else ([], s)
  | _ => ([], s)
  end.

(** ** Summaries of a trace *)

(** What the session sends for a recognition result: the transcript
    message when the recogniser returned a text and the line logging it
    could be printed, nothing otherwise. *)
Definition reply_of (r : outcome str) : list str :=
  match r with
  | Returns text =>
      if encodable (recognized_line text) then [transcript_message text]
      else []
  | _ => []
  end.

Definition chunk_free (ws : conn) (tr : list event) : Prop :=
  forallb (fun e => negb (is_chunk_on ws e)) tr = true.

Definition is_print (e : event) : bool :=
  match e with
  | Printed _ => true
  | _ => false
  end.

Definition only_prints (tr : list event) : Prop := forallb is_print tr = true.

(** The per-chunk summary of a trace: every received chunk paired with
    the result of its recognition call. *)
Definition exchange_of (p : frame * outcome str) : exchange :=
  mkExchange (fst p) [(audio_of (fst p), snd p)] (reply_of (snd p)).

Definition digest (ws : conn) (rs : list (frame * outcome str))
           (tr : list event) : Prop :=
  chunks_on ws tr = map fst rs /\
  recognitions tr = map (fun p => (audio_of (fst p), snd p)) rs /\
  sent_on ws tr = flat_map (fun p => reply_of (snd p)) rs /\
  exchanges ws tr = map exchange_of rs.

(** From [main] on, the callback stays registered, [main] stays
    suspended on the anonymous future, which stays pending, and the
    server stays open. *)
Definition main_blocked (p : process) : Prop :=
  on_sigterm p = Some stop_future /\
  main_awaits p = Some anonymous_future /\
  anonymous p = PENDING /\
  listening p = true.

(** ** More readers of traces and of signal sequences *)

(** The connection an event is about, when it is about one. *)
Definition conn_of (ev : event) : option conn :=
  match ev with
  | Received ws _ => Some ws
  | Sending ws _ _ => Some ws
  | _ => None
  end.

(** An event that is about no connection but [ws]. *)
Definition on_conn (ws : conn) (ev : event) : bool :=
  match conn_of ev with
  | Some c => Nat.eqb c ws
  | None => true
  end.

(** An event that is a call made by the loop body: a recognition
    request or a send. *)
Definition is_body_call (ev : event) : bool :=
  match ev with
  | Recognition _ _ => true
  | Sending _ _ _ => true
  | _ => false
  end.

(** The number of SIGTERM deliveries in a sequence of stimuli. *)
Fixpoint sigterms (xs : list stimulus) : nat :=
  match xs with
  | [] => O
  | SIGTERM :: xs' => S (sigterms xs')
  | Connect _ :: xs' => sigterms xs'
  end.

(** What the event loop's exception handler is handed, in order, while
    the process reacts to a sequence of stimuli. *)
Fixpoint errors_logged (p : process) (xs : list stimulus) : list exn :=
  match xs with
  | [] => []
  | SIGTERM :: xs' =>
      snd (deliver_sigterm p) ++ errors_logged (react p SIGTERM) xs'
  | Connect c :: xs' => errors_logged (react p (Connect c)) xs'
  end.

(** What one resumption of a session task leaves in the trace: a
    receive that gave no chunk, or a chunk and one pass of the loop
    body; then at most the closing line. *)
Inductive turn (ws : conn) : list event -> Prop :=
| turn_no_chunk r post :
    (forall c, r <> Returns c) -> only_prints post ->
    turn ws (Received ws r :: post)
| turn_chunk c b s post :
    iteration ws c b s -> only_prints post ->
    turn ws (Received ws (Returns c) :: b ++ post).

(** ** What the world feeds a session *)

Section Inputs.
Variable World : Type.
Variable ws_recv : conn -> World -> outcome frame * World.
Variable recognize_google : AudioData -> World -> outcome str * World.
Variable ws_send : conn -> str -> World -> outcome unit * World.

(** From [w] on, the connection delivers the chunks of [script] one
    after the other and the recogniser succeeds on each of them: the
    receive gives the chunk, the recognition request for its audio
    returns the text paired with it, and the send of the transcript of
    that text, which comes before the next receive, returns whenever a
    next chunk follows.  [w'] is the world after the send for the last
    chunk. *)
Inductive hears_all (ws : conn)
  : World -> list (frame * str) -> World -> Prop :=
| hears_nothing w :
    hears_all ws w [] w
| hears_next w c w1 text w2 r w3 rest w' :
    ws_recv ws w = (Returns c, w1) ->
    recognize_google (audio_of c) w1 = (Returns text, w2) ->
    ws_send ws (transcript_message text) w2 = (r, w3) ->
    (rest <> [] -> r = Returns tt) ->
    hears_all ws w3 rest w' ->
    hears_all ws w ((c, text) :: rest) w'.

(** [n] iterations of the loop, each of them letting the loop go on,
    take the world from [w] to [w'] and leave [tr] in the trace. *)
Inductive goes_on (ws : conn) : nat -> World -> list event -> World -> Prop :=
| goes_nowhere w :
    goes_on ws O w [] w
| goes_further n w c w1 b w2 tr w' :
    ws_recv ws w = (Returns c, w1) ->
    loop_body recognize_google ws_send ws c w1 = (b, Ret tt, w2) ->
    goes_on ws n w2 tr w' ->
    goes_on ws (S n) w (Received ws (Returns c) :: b ++ tr) w'.

End Inputs.

Arguments hears_all {World} ws_recv recognize_google ws_send ws _ _ _.
Arguments goes_on {World} ws_recv recognize_google ws_send ws _ _ _ _.

(** ** A scripted world, for concrete runs *)

Module Script.

(** What the outside will do: per connection what the successive
    receives give, per chunk what the recogniser makes of its audio,
    and per connection what becomes of the successive sends.  Every
    entry is used once, the first one that fits; a call that finds no
    entry never completes. *)
Record world := mkWorld {
  inbox : list (conn * outcome frame);
  answers : list (frame * outcome str);
  wire : list (conn * outcome unit)
}.

Fixpoint str_eqb (a b : list Z) : bool :=
  match a, b with
  | [], [] => true
  | x :: a', y :: b' => (x =? y) && str_eqb a' b'
  | _, _ => false
  end.

Definition frame_eqb (a b : frame) : bool :=
  match a, b with
  | Binary x, Binary y => str_eqb x y
  | Text x, Text y => str_eqb x y
  | _, _ => false
  end.

(** The first entry filed under [k], and the entries left. *)
Fixpoint take_first {K V : Type} (eqb : K -> K -> bool) (k : K)
         (l : list (K * V)) : option (V * list (K * V)) :=
  match l with
  | [] => None
  | (k', v) :: l' =>
      if eqb k' k then Some (v, l')
      else match take_first eqb k l' with
           | Some (v', l'') => Some (v', (k', v) :: l'')
           | None => None
           end
  end.

Definition recv (ws : conn) (w : world) : outcome frame * world :=
  match take_first Nat.eqb ws (inbox w) with
  | Some (r, rest) => (r, mkWorld rest (answers w) (wire w))
  | None => (Never, w)
  end.

Definition recognize (audio : AudioData) (w : world) : outcome str * world :=
  match take_first frame_eqb (frame_data audio) (answers w) with
  | Some (r, rest) => (r, mkWorld (inbox w) rest (wire w))
  | None => (Never, w)
  end.

Definition send (ws : conn) (_ : str) (w : world) : outcome unit * world :=
  match take_first Nat.eqb ws (wire w) with
  | Some (r, rest) => (r, mkWorld (inbox w) (answers w) rest)
  | None => (Never, w)
  end.

Definition handler := transcribe_handler recv recognize send.
Definition resume := resume recv recognize send.
Definition event_loop := event_loop recv recognize send.

End Script.


(** ** Sample worlds *)

Module Samples.

Definition ws1 : conn := 1%nat.
Definition ws2 : conn := 2%nat.

Definition speech_hello : frame := Binary [104; 1; 101; 2].
Definition speech_world : frame := Binary [119; 3; 111; 4].
Definition silence : frame := Binary [0; 0; 0; 0].
Definition garbled : frame := Binary [255; 127].

(** The example of the specification: clear speech, silence, clear
    speech, then the peer closes. *)
Definition hello_silence_world : Script.world :=
  Script.mkWorld
    [(ws1, Returns speech_hello); (ws1, Returns silence);
     (ws1, Returns speech_world); (ws1, Raises ConnectionClosedOK)]
    [(speech_hello, Returns (lit "hello")); (silence, Raises UnknownValueError);
     (speech_world, Returns (lit "world"))]
    [(ws1, Returns tt); (ws1, Returns tt)].

(** Two chunks of clear speech on a connection that stays open. *)
Definition clear_speech : Script.world :=
  Script.mkWorld
    [(ws1, Returns speech_hello); (ws1, Returns speech_world)]
    [(speech_hello, Returns (lit "hello")); (speech_world, Returns (lit "world"))]
    [(ws1, Returns tt); (ws1, Returns tt)].

(** The recognition service is unreachable for the first chunk; the
    second is clear speech; then the connection breaks. *)
Definition upstream_down : Script.world :=
  Script.mkWorld
    [(ws1, Returns garbled); (ws1, Returns speech_world);
     (ws1, Raises ConnectionClosedError)]
    [(garbled, Raises (RequestError "timed out"));
     (speech_world, Returns (lit "world"))]
    [(ws1, Returns tt)].

(** [hello_silence_world] after its first chunk was answered, after
    the receive of its second chunk, and after the recognition request
    for that chunk. *)
Definition silence_next : Script.world :=
  Script.mkWorld
    [(ws1, Returns silence); (ws1, Returns speech_world);
     (ws1, Raises ConnectionClosedOK)]
    [(silence, Raises UnknownValueError); (speech_world, Returns (lit "world"))]
    [(ws1, Returns tt)].

Definition silence_asked : Script.world :=
  Script.mkWorld
    [(ws1, Returns speech_world); (ws1, Raises ConnectionClosedOK)]
    [(silence, Raises UnknownValueError); (speech_world, Returns (lit "world"))]
    [(ws1, Returns tt)].

Definition silence_failed : Script.world :=
  Script.mkWorld
    [(ws1, Returns speech_world); (ws1, Raises ConnectionClosedOK)]
    [(speech_world, Returns (lit "world"))]
    [(ws1, Returns tt)].

(** The peer is gone when the first transcript is written. *)
Definition peer_gone : Script.world :=
  Script.mkWorld
    [(ws1, Returns speech_hello); (ws1, Returns speech_world)]
    [(speech_hello, Returns (lit "hello")); (speech_world, Returns (lit "world"))]
    [(ws1, Raises ConnectionClosedError)].

(** A text frame arrives; the recogniser fails on it with a
    [TypeError], its audio conversion needing a bytes-like object. *)
Definition not_bytes : exn :=
  OtherException "TypeError" (lit "a bytes-like object is required, not 'str'").

Definition text_frame : Script.world :=
  Script.mkWorld
    [(ws1, Returns (Text (lit "hi"))); (ws1, Returns speech_world)]
    [(Text (lit "hi"), Raises not_bytes); (speech_world, Returns (lit "world"))]
    [(ws1, Returns tt)].

(** [text_frame] after the receive of the text frame, and after the
    recognition request for it. *)
Definition text_frame_asked : Script.world :=
  Script.mkWorld
    [(ws1, Returns speech_world)]
    [(Text (lit "hi"), Raises not_bytes); (speech_world, Returns (lit "world"))]
    [(ws1, Returns tt)].

Definition text_frame_failed : Script.world :=
  Script.mkWorld
    [(ws1, Returns speech_world)]
    [(speech_world, Returns (lit "world"))]
    [(ws1, Returns tt)].

(** The recogniser returns a text with a lone surrogate for the first
    chunk, as [json.loads] builds it from an unpaired [\ud800] escape
    in the response. *)
Definition unprintable : Script.world :=
  Script.mkWorld
    [(ws1, Returns speech_hello); (ws1, Returns speech_world)]
    [(speech_hello, Returns [0xD800]); (speech_world, Returns (lit "world"))]
    [(ws1, Returns tt); (ws1, Returns tt)].

(** [clear_speech] after its first chunk was answered. *)
Definition clear_speech_rest : Script.world :=
  Script.mkWorld
    [(ws1, Returns speech_world)]
    [(speech_world, Returns (lit "world"))]
    [(ws1, Returns tt)].

(** Two open sessions.  The recognition request for the chunk of the
    first is never answered; the chunk of the second is clear speech. *)
Definition stalled_neighbour : Script.world :=
  Script.mkWorld
    [(ws1, Returns garbled); (ws2, Returns speech_world)]
    [(garbled, Never); (speech_world, Returns (lit "world"))]
    [(ws2, Returns tt)].

(** [stalled_neighbour] once the first session is inside its
    recognition request. *)
Definition stalled_for_good : Script.world :=
  Script.mkWorld
    [(ws2, Returns speech_world)]
    [(speech_world, Returns (lit "world"))]
    [(ws2, Returns tt)].

End Samples.


#[global] Arguments Json.dumps : simpl never.
#[global] Arguments lit : simpl never.


(** * Properties *)

(** ** Facts about the JSON encoder and reader *)

Module JsonFacts.
Import Json.

Lemma land_15 n : Z.land n 15 = n mod 16.
Proof. change 15 with (Z.ones 4). now rewrite Z.land_ones. Qed.

Lemma land_0x3ff n : Z.land n 0x3ff = n mod 1024.
Proof. change 0x3ff with (Z.ones 10). now rewrite Z.land_ones. Qed.

Lemma shiftr_div n k : 0 <= k -> Z.shiftr n k = n / 2 ^ k.
Proof. intros; now apply Z.shiftr_div_pow2. Qed.

(** A number below [2^k] or-ed under a multiple of [2^k] is added. *)
Lemma lor_shiftl_low hi lo k :
  0 <= k -> 0 <= lo < 2 ^ k -> Z.lor (Z.shiftl hi k) lo = hi * 2 ^ k + lo.
Proof.
  intros Hk Hlo.
  assert (Hland : Z.land (Z.shiftl hi k) lo = 0).
  { apply Z.bits_inj'. intros i Hi.
    rewrite Z.land_spec, Z.bits_0.
    destruct (Z.lt_ge_cases i k) as [Hlt|Hge].
    - rewrite Z.shiftl_spec_low by assumption. reflexivity.
    - destruct (Z.eq_dec lo 0) as [->|Hne].
      + rewrite Z.bits_0. apply andb_false_r.
      + rewrite (Z.bits_above_log2 lo i); [apply andb_false_r| lia |].
        apply Z.lt_le_trans with k; [|assumption].
        apply Z.log2_lt_pow2; lia. }
  rewrite <- Z.lxor_lor by assumption.
  rewrite <- Z.add_nocarry_lxor by assumption.
  now rewrite Z.shiftl_mul_pow2.
Qed.


Lemma unhex_hexdigit d : 0 <= d < 16 -> unhex (hexdigit d) = Some d.
Proof.
  intros H. unfold unhex, hexdigit.
  destruct (d <? 10) eqn:E.
  - replace ((48 <=? 48 + d) && (48 + d <=? 57)) with true by lia.
    f_equal; lia.
  - replace ((48 <=? 87 + d) && (87 + d <=? 57)) with false by lia.
    replace ((97 <=? 87 + d) && (87 + d <=? 102)) with true by lia.
    f_equal; lia.
Qed.

Lemma nibble_range n k : 0 <= Z.land (Z.shiftr n k) 15 < 16.
Proof. rewrite land_15. apply Z.mod_pos_bound; lia. Qed.

Lemma hex4_format n rest :
  0 <= n < 0x10000 -> hex4 (format_04x n ++ rest) = Some (n, rest).
Proof.
  intros H. unfold format_04x, hex4. cbn [app].
  rewrite !unhex_hexdigit
    by (first [apply nibble_range | rewrite land_15; apply Z.mod_pos_bound; lia]).
  f_equal. f_equal.
  rewrite !land_15, !shiftr_div by lia.
  change (2 ^ 12) with 4096. change (2 ^ 8) with 256. change (2 ^ 4) with 16.
  Z.div_mod_to_equations. lia.
Qed.

Lemma read_escape_u rest :
  read_escape (117 :: rest) =
  match hex4 rest with
  | None => None
  | Some (uni, rest1) =>
      if is_high_surrogate uni && starts_with_u rest1 then
        match hex4 (skipn 2 rest1) with
        | None => None
        | Some (uni2, rest3) =>
            if is_low_surrogate uni2 then
              Some (0x10000 +
                    Z.lor (Z.shiftl (uni - 0xd800) 10) (uni2 - 0xdc00),
                    rest3)
            else Some (uni, rest1)
        end
      else Some (uni, rest1)
  end.
Proof. reflexivity. Qed.

(** A [\uXXXX] escape with nothing to join stands for its own code
    point. *)
Lemma read_escape_alone n rest :
  0 <= n < 0x10000 ->
  (is_high_surrogate n = true -> joining rest = false) ->
  read_escape (117 :: format_04x n ++ rest) = Some (n, rest).
Proof.
  intros Hn Hjoin. rewrite read_escape_u, hex4_format by assumption.
  destruct (is_high_surrogate n); [|reflexivity].
  specialize (Hjoin eq_refl). unfold joining in Hjoin.
  destruct (starts_with_u rest); [|reflexivity]. cbn [andb] in *.
  destruct (hex4 (skipn 2 rest)) as [[uni2 rest3]|]; [|discriminate].
  now rewrite Hjoin.
Qed.

Lemma joining_escape_u n tail :
  0 <= n < 0x10000 -> is_low_surrogate n = false ->
  joining (backslash :: 117 :: format_04x n ++ tail) = false.
Proof.
  intros Hn Hlow. unfold joining. cbn [starts_with_u skipn].
  rewrite hex4_format by assumption. rewrite Hlow. apply andb_false_r.
Qed.

Lemma joining_other_head a tail :
  a <> backslash -> joining (a :: tail) = false.
Proof.
  intros Ha. unfold joining.
  replace (starts_with_u (a :: tail)) with false; [reflexivity|].
  destruct tail; cbn [starts_with_u]; [reflexivity|].
  apply Z.eqb_neq in Ha. now rewrite Ha.
Qed.

(** The two halves of a surrogate pair, as the encoder computes them. *)
Lemma high_surrogate n :
  0 <= n < 0x100000 ->
  Z.lor 0xd800 (Z.land (Z.shiftr n 10) 0x3ff) = 0xd800 + n / 1024.
Proof.
  intros H. rewrite land_0x3ff, shiftr_div by lia. change (2 ^ 10) with 1024.
  change 0xd800 with (Z.shiftl 54 10) at 1.
  rewrite lor_shiftl_low; [|lia|apply Z.mod_pos_bound; lia].
  change (2 ^ 10) with 1024. Z.div_mod_to_equations. lia.
Qed.

Lemma low_surrogate n :
  Z.lor 0xdc00 (Z.land n 0x3ff) = 0xdc00 + n mod 1024.
Proof.
  rewrite land_0x3ff. change 0xdc00 with (Z.shiftl 55 10) at 1.
  rewrite lor_shiftl_low; [|lia|apply Z.mod_pos_bound; lia].
  change (2 ^ 10) with 1024. lia.
Qed.

Lemma join_surrogates n :
  0 <= n < 0x100000 ->
  0x10000 + Z.lor (Z.shiftl (0xd800 + n / 1024 - 0xd800) 10)
                  (0xdc00 + n mod 1024 - 0xdc00) = 0x10000 + n.
Proof.
  intros H.
  rewrite lor_shiftl_low; [|lia|].
  - change (2 ^ 10) with 1024. Z.div_mod_to_equations. lia.
  - change (2 ^ 10) with 1024. Z.div_mod_to_equations. lia.
Qed.

Ltac short_escape E :=
  apply Z.eqb_eq in E; subst;
  eexists; split; [reflexivity | split; intros; reflexivity].

(** Every escape the encoder writes starts with a backslash; what
    follows it reads back as the character that was escaped, unless
    that is a high surrogate and something to join comes next; and the
    escape of anything but a low surrogate is nothing to join. *)
Lemma replace_reads_back c :
  code_point c -> ESCAPE_ASCII c = true ->
  exists e, replace c = backslash :: e /\
            (forall rest,
               (is_high_surrogate c = true -> joining rest = false) ->
               read_escape (e ++ rest) = Some (c, rest)) /\
            (is_low_surrogate c = false ->
             forall tail, joining (backslash :: e ++ tail) = false).
Proof.
  intros Hc Hesc. unfold replace, ESCAPE_DCT.
  destruct (c =? backslash) eqn:E1; [short_escape E1|].
  destruct (c =? quote) eqn:E2; [short_escape E2|].
  destruct (c =? 8) eqn:E3; [short_escape E3|].
  destruct (c =? 12) eqn:E4; [short_escape E4|].
  destruct (c =? 10) eqn:E5; [short_escape E5|].
  destruct (c =? 13) eqn:E6; [short_escape E6|].
  destruct (c =? 9) eqn:E7; [short_escape E7|].
  unfold code_point in Hc.
  assert (Hu : c < 0x10000 ->
               exists e, [backslash; 117] ++ format_04x c = backslash :: e /\
                 (forall rest,
                    (is_high_surrogate c = true -> joining rest = false) ->
                    read_escape (e ++ rest) = Some (c, rest)) /\
                 (is_low_surrogate c = false ->
                  forall tail, joining (backslash :: e ++ tail) = false)).
  { intros Hbmp. exists (117 :: format_04x c). split; [reflexivity|]. split.
    - intros rest Hjoin. cbn [app]. apply read_escape_alone; [lia|exact Hjoin].
    - intros Hlow tail. cbn [app]. apply joining_escape_u; [lia|exact Hlow]. }
  destruct ((0 <=? c) && (c <? 32)) eqn:Ectl; [apply Hu; lia|].
  destruct (c <? 0x10000) eqn:Ebmp; [apply Hu; lia|].
  cbv zeta. rewrite high_surrogate, low_surrogate by lia.
  assert (Hhi : 0 <= (c - 0x10000) / 1024 < 1024)
    by (Z.div_mod_to_equations; lia).
  assert (Hlo : 0 <= (c - 0x10000) mod 1024 < 1024)
    by (apply Z.mod_pos_bound; lia).
  exists (117 :: format_04x (0xd800 + (c - 0x10000) / 1024)
            ++ backslash :: 117
               :: format_04x (0xdc00 + (c - 0x10000) mod 1024)).
  split; [reflexivity|]. split.
  - intros rest _. cbn [app]. rewrite <- app_assoc. cbn [app].
    rewrite read_escape_u, hex4_format by lia.
    replace (is_high_surrogate (0xd800 + (c - 0x10000) / 1024)) with true
      by (unfold is_high_surrogate; lia).
    cbn [starts_with_u skipn andb].
    change ((backslash =? backslash) && (117 =? 117)) with true. cbv iota.
    rewrite hex4_format by lia.
    replace (is_low_surrogate (0xdc00 + (c - 0x10000) mod 1024)) with true
      by (unfold is_low_surrogate; lia).
    rewrite join_surrogates by lia. do 2 f_equal. lia.
  - intros _ tail. cbn [app]. rewrite <- app_assoc.
    apply joining_escape_u; [lia|]. unfold is_low_surrogate. lia.
Qed.

Lemma joining_escape text rest :
  Forall code_point text ->
  match text with
  | d :: _ => is_low_surrogate d = false
  | [] => True
  end ->
  joining (escape text ++ quote :: rest) = false.
Proof.
  intros Hcp Hhead. destruct text as [|d text].
  - cbn [escape flat_map app]. now apply joining_other_head.
  - unfold escape; cbn [flat_map]; fold (escape text). rewrite <- app_assoc.
    apply Forall_inv in Hcp.
    destruct (ESCAPE_ASCII d) eqn:Hesc.
    + destruct (replace_reads_back d Hcp Hesc) as (e & -> & _ & Hnot).
      cbn [app]. now apply Hnot.
    + cbn [app]. apply joining_other_head.
      unfold ESCAPE_ASCII in Hesc.
      apply orb_false_iff in Hesc as [Hesc _].
      apply orb_false_iff in Hesc as [Hbs _].
      now apply Z.eqb_neq.
Qed.

Lemma read_chars_quote fuel rest :
  read_chars (S fuel) (quote :: rest) = Some ([], rest).
Proof. reflexivity. Qed.

Lemma read_chars_escaped text :
  Forall code_point text -> unpaired text = true ->
  forall fuel rest, (length text < fuel)%nat ->
  read_chars fuel (escape text ++ quote :: rest) = Some (text, rest).
Proof.
  induction 1 as [|c text Hc Htext IH]; intros Hpair fuel rest Hfuel.
  - destruct fuel; [cbn in Hfuel; lia|]. apply read_chars_quote.
  - destruct fuel as [|fuel]; [cbn in Hfuel; lia|].
    cbn [length] in Hfuel. cbn [unpaired] in Hpair.
    apply andb_prop in Hpair as [Hhead Hpair].
    unfold escape. cbn [flat_map]. fold (escape text).
    rewrite <- app_assoc.
    destruct (ESCAPE_ASCII c) eqn:Hesc.
    + destruct (replace_reads_back c Hc Hesc) as (e & -> & Hread & _).
      cbn [app read_chars].
      change (backslash =? quote) with false.
      change (backslash =? backslash) with true. cbv iota.
      rewrite Hread; [rewrite IH by (assumption || lia); reflexivity|].
      intros Hhigh. apply joining_escape; [assumption|].
      destruct text as [|d text']; [exact I|].
      rewrite Hhigh in Hhead. cbn [andb] in Hhead.
      now apply negb_true_iff in Hhead.
    + unfold ESCAPE_ASCII in Hesc.
      apply orb_false_iff in Hesc as [Hesc Hrange].
      apply orb_false_iff in Hesc as [Hbs Hq].
      apply negb_false_iff in Hrange.
      cbn [app read_chars]. rewrite Hq, Hbs.
      replace (c <? 32) with false by lia.
      rewrite IH by (assumption || lia). reflexivity.
Qed.

Lemma read_string_literal text fuel rest :
  text_string text -> (length text < fuel)%nat ->
  read_string fuel (py_encode_basestring_ascii text ++ rest) = Some (text, rest).
Proof.
  intros [Hcp Hpair] Hf. unfold read_string, py_encode_basestring_ascii.
  cbn [app skip_ws]. change (is_ws quote) with false. cbv iota.
  change (quote =? quote) with true. cbv iota.
  rewrite <- app_assoc. now apply read_chars_escaped.
Qed.








Lemma replace_nonempty c : (1 <= length (replace c))%nat.
Proof.
  unfold replace, ESCAPE_DCT.
  repeat match goal with
         | |- context [if ?b then _ else _] => destruct b
         end; cbn [length app]; lia.
Qed.

Lemma escape_length s : (length s <= length (escape s))%nat.
Proof.
  induction s as [|c s IH]; [reflexivity|].
  unfold escape; cbn [flat_map]; fold (escape s).
  rewrite length_app. cbn [length].
  destruct (ESCAPE_ASCII c); [pose proof (replace_nonempty c)|cbn [length]]; lia.
Qed.

Lemma encode_length s : (length s < length (py_encode_basestring_ascii s))%nat.
Proof.
  unfold py_encode_basestring_ascii. rewrite !length_app. cbn [length].
  pose proof (escape_length s). lia.
Qed.

Lemma skip_ws_literal s rest :
  skip_ws (py_encode_basestring_ascii s ++ rest)
  = py_encode_basestring_ascii s ++ rest.
Proof. reflexivity. Qed.

(** The text [dumps] writes for a one-entry dict, spelled out. *)
Lemma dumps_single k v :
  dumps [(k, v)] =
  123 :: py_encode_basestring_ascii k
      ++ 58 :: 32 :: py_encode_basestring_ascii v ++ [125].
Proof.
  unfold dumps. cbn [map join fst snd].
  change (lit "{") with [123]. change (lit "}") with [125].
  change (lit ": ") with [58; 32].
  cbn [app]. now rewrite <- !app_assoc.
Qed.

(** Reading back what [dumps] wrote for a one-entry dict yields that
    entry and nothing else. *)
Lemma loads_dumps_single k v :
  text_string k -> text_string v ->
  loads_object (dumps [(k, v)]) = Some [(k, v)].
Proof.
  intros Hk Hv. rewrite dumps_single.
  unfold loads_object. cbn [skip_ws]. change (is_ws 123) with false. cbv iota.
  change (123 =? 123) with true. cbv iota.
  set (whole := 123 :: _).
  assert (Hlk : (length k < S (length whole))%nat).
  { subst whole. cbn [length]. rewrite length_app.
    pose proof (encode_length k). lia. }
  assert (Hlv : (length v < S (length whole))%nat).
  { subst whole. cbn [length]. rewrite !length_app. cbn [length].
    rewrite length_app. pose proof (encode_length v). lia. }
  generalize dependent (S (length whole)). intros fuel Hlk Hlv.
  destruct fuel as [|fuel']; [lia|].
  cbn [read_members]. rewrite !skip_ws_literal.
  unfold py_encode_basestring_ascii at 1. cbn [app].
  change ((quote =? 125) && true) with false. cbv iota.
  change (quote :: escape k ++ [quote]
            ++ 58 :: 32 :: py_encode_basestring_ascii v ++ [125])
    with (py_encode_basestring_ascii k
            ++ 58 :: 32 :: py_encode_basestring_ascii v ++ [125]).
  rewrite read_string_literal by assumption.
  cbn [skip_ws]. change (is_ws 58) with false. cbv iota.
  change (58 =? 58) with true. cbv iota.
  unfold read_string at 1. cbn [skip_ws]. change (is_ws 32) with true. cbv iota.
  fold (read_string (S fuel') (py_encode_basestring_ascii v ++ [125])).
  rewrite read_string_literal by assumption.
  reflexivity.
Qed.

End JsonFacts.


(** ** What the console accepts *)

Lemma utf8_encode_app a b :
  utf8_encode (a ++ b) =
  match utf8_encode a, utf8_encode b with
  | Some x, Some y => Some (x ++ y)
  | _, _ => None
  end.
Proof.
  induction a as [|c a IH]; cbn [app utf8_encode].
  - now destruct (utf8_encode b).
  - rewrite IH. destruct (utf8_char c), (utf8_encode a), (utf8_encode b);
      try reflexivity. now rewrite app_assoc.
Qed.

Lemma encodable_app a b : encodable (a ++ b) = encodable a && encodable b.
Proof.
  unfold encodable. rewrite utf8_encode_app.
  now destruct (utf8_encode a), (utf8_encode b).
Qed.


(** Literal text of the source and library messages are encodable. *)
Lemma lit_encodable (s : string) : encodable (lit s) = true.
Proof.
  unfold lit. induction s as [|a s IH]; [reflexivity|].
  cbn [list_ascii_of_string map].
  change (of_ascii a :: map of_ascii (list_ascii_of_string s))
    with ([of_ascii a] ++ map of_ascii (list_ascii_of_string s)).
  rewrite encodable_app, IH, andb_true_r.
  unfold encodable, of_ascii. cbn [utf8_encode]. unfold utf8_char.
  pose proof (N_ascii_bounded a) as Hb.
  assert (H : 0 <= Z.of_N (N_of_ascii a) < 256) by lia.
  replace (Z.of_N (N_of_ascii a) <? 0) with false by lia.
  destruct (Z.of_N (N_of_ascii a) <? 128); [reflexivity|].
  replace (Z.of_N (N_of_ascii a) <? 2048) with true by lia. reflexivity.
Qed.

Lemma api_error_encodable (detail : string) :
  encodable (lit "Google API Error: " ++ lit detail) = true.
Proof. now rewrite encodable_app, !lit_encodable. Qed.

Lemma diagnostic_encodable e line :
  diagnostic e = Some line -> encodable line = true.
Proof.
  destruct e; cbn; intros H; try discriminate; injection H as <-.
  - apply lit_encodable.
  - apply api_error_encodable.
Qed.



Ltac settle_prints :=
  repeat first
    [ progress change (encodable (lit "Connection established for voice transcription."))
        with true
    | progress change (encodable (lit "Connection for voice transcription closed."))
        with true
    | progress change (encodable (lit "Could not understand audio.")) with true
    | rewrite api_error_encodable ].

(** ** The shape of every run *)

Section Shape.
Variable World : Type.
Variable ws_recv : conn -> World -> outcome frame * World.
Variable recognize_google : AudioData -> World -> outcome str * World.
Variable ws_send : conn -> str -> World -> outcome unit * World.
Local Abbreviation body := (loop_body recognize_google ws_send).
Local Abbreviation loop := (async_for ws_recv recognize_google ws_send).
Local Abbreviation handler := (transcribe_handler ws_recv recognize_google ws_send).

Lemma loop_body_shape ws c w :
  iteration ws c (trace_of (body ws c w)) (status_of (body ws c w)).
Proof.
  unfold body, loop_body, trace_of, status_of, try_except, bind, lift_init,
    call_sync, await, print, ret.
  change (AudioData_init c 16000 2) with (@inr exn _ (audio_of c)).
  cbn beta iota. settle_prints.
  destruct (recognize_google (audio_of c) w) as [[text|e|] w1]; cbn.
  - change (lit "Recognized: " ++ text) with (recognized_line text).
    destruct (encodable (recognized_line text)) eqn:Henc; cbn.
    + destruct (ws_send ws (Json.dumps [(lit "transcript", text)]) w1)
        as [[[]|e|] w2]; cbn.
      * now apply it_sent.
      * destruct e; cbn; settle_prints; cbn;
          first [ now apply it_send_raised
                | now eapply it_send_absorbed ].
      * now apply it_send_parked.
    + now apply it_print_raised.
  - destruct e; cbn; settle_prints; cbn;
      first [ now apply it_raised | now eapply it_absorbed ].
  - apply it_stalled.
Qed.

Lemma async_for_shape fuel ws : forall w,
  loop_run ws (trace_of (loop fuel ws w)) (status_of (loop fuel ws w)).
Proof.
  induction fuel as [|fuel IH]; intros w.
  - apply run_unfinished.
  - unfold loop. cbn [async_for]. fold (loop fuel).
    unfold bind at 1, ws_anext, try_except, bind, await, ret.
    destruct (ws_recv ws w) as [[c|e|] w1]; cbn beta iota.
    + pose proof (loop_body_shape ws c w1) as Hb.
      unfold bind. fold body.
      destruct (body ws c w1) as [[b [[]|h]] w2]; cbn in Hb |- *.
      * specialize (IH w2).
        destruct (loop fuel ws w2) as [[tr s] w3]; cbn in IH |- *.
        now apply run_next.
      * now apply run_broken.
    + destruct e; cbn; first [ apply run_exhausted
                             | apply run_recv_raised; discriminate ].
    + apply run_recv_parked.
Qed.

(** The handler is the opening line, the loop, and the outer [except]
    clause applied to the way the loop ended. *)
Lemma handler_unfold fuel ws w :
  handler fuel ws w =
  (Printed established_line
     :: trace_of (loop fuel ws w) ++ fst (closing (status_of (loop fuel ws w))),
   snd (closing (status_of (loop fuel ws w))),
   snd (loop fuel ws w)).
Proof.
  unfold handler, transcribe_handler, trace_of, status_of, bind, print, try_except.
  fold loop. settle_prints. cbv beta iota.
  destruct (loop fuel ws w) as [[tr s] w1]. cbn [fst snd].
  unfold closing.
  destruct s as [[]|[e| | |]]; cbn; rewrite ?app_nil_r; try reflexivity.
  destruct (is_ConnectionClosed e); cbn; rewrite ?app_nil_r; reflexivity.
Qed.

Lemma handler_shape fuel ws w :
  exists tr s,
    loop_run ws tr s /\
    trace_of (handler fuel ws w) = Printed established_line :: tr ++ fst (closing s) /\
    status_of (handler fuel ws w) = snd (closing s).
Proof.
  pose proof (async_for_shape fuel ws w) as H.
  rewrite handler_unfold. fold loop in H.
  exists (trace_of (loop fuel ws w)), (status_of (loop fuel ws w)).
  split; [exact H|]. split; reflexivity.
Qed.

End Shape.


(** ** Reading the shape: chunks, recognitions and messages *)

Lemma sent_on_app ws a b : sent_on ws (a ++ b) = sent_on ws a ++ sent_on ws b.
Proof.
  induction a as [|[l|ws' r|au r|ws' m r] a IH]; cbn; auto.
  destruct (Nat.eqb ws' ws); cbn; now rewrite IH.
Qed.

Lemma chunks_on_app ws a b :
  chunks_on ws (a ++ b) = chunks_on ws a ++ chunks_on ws b.
Proof.
  induction a as [|[l|ws' [c|e|]|au r|ws' m r] a IH]; cbn; auto.
  destruct (Nat.eqb ws' ws); cbn; now rewrite IH.
Qed.

Lemma recognitions_app a b :
  recognitions (a ++ b) = recognitions a ++ recognitions b.
Proof.
  induction a as [|[l|ws' r|au r|ws' m r] a IH]; cbn; auto. now rewrite IH.
Qed.

Lemma until_next_chunk_app ws a b :
  chunk_free ws a ->
  until_next_chunk ws (a ++ b) = a ++ until_next_chunk ws b.
Proof.
  unfold chunk_free. induction a as [|e a IH]; cbn; [reflexivity|].
  intros H. apply andb_prop in H as [He Ha].
  apply negb_true_iff in He. rewrite He. now rewrite IH.
Qed.

Lemma exchanges_app_free ws a b :
  chunk_free ws a -> exchanges ws (a ++ b) = exchanges ws b.
Proof.
  unfold chunk_free. induction a as [|e a IH]; cbn; [reflexivity|].
  intros H. apply andb_prop in H as [He Ha].
  apply negb_true_iff in He.
  destruct e as [l|ws' [c|x|]|au r|ws' m r]; cbn in He |- *; auto.
  rewrite He. auto.
Qed.

Lemma only_prints_quiet ws post :
  only_prints post ->
  chunk_free ws post /\ sent_on ws post = [] /\ chunks_on ws post = [] /\
  recognitions post = [] /\ exchanges ws post = [].
Proof.
  unfold only_prints, chunk_free.
  induction post as [|[l|ws' r|au r|ws' m r] post IH]; cbn; intros H;
    try discriminate; auto.
Qed.

Lemma until_next_chunk_free ws a :
  chunk_free ws a -> until_next_chunk ws a = a.
Proof.
  intros H. rewrite <- (app_nil_r a) at 1.
  rewrite until_next_chunk_app by assumption. cbn. apply app_nil_r.
Qed.

(** What one pass of the loop body contributes. *)
Lemma iteration_digest ws c b s :
  iteration ws c b s ->
  exists r,
    chunk_free ws b /\ chunks_on ws b = [] /\
    recognitions b = [(audio_of c, r)] /\
    sent_on ws b = reply_of r.
Proof.
  destruct 1;
    [ exists (Returns text) | exists (Returns text) | exists (Returns text)
    | exists (Returns text) | exists (Returns text)
    | exists (Raises e) | exists (Raises e) | exists Never ];
    unfold chunk_free, reply_of; cbn; rewrite ?Nat.eqb_refl;
    repeat match goal with
           | H : encodable _ = _ |- _ => rewrite H; clear H
           end; auto.
Qed.

(** Before its first chunk, a loop trace followed by console output
    shows no recognition and no message. *)
Lemma loop_head_quiet ws tr s post :
  loop_run ws tr s -> only_prints post ->
  recognitions (until_next_chunk ws (tr ++ post)) = [] /\
  sent_on ws (until_next_chunk ws (tr ++ post)) = [].
Proof.
  intros Hrun Hpost.
  destruct (only_prints_quiet ws post Hpost) as (Hfree & Hsent & _ & Hrec & _).
  destruct Hrun; cbn [app until_next_chunk is_chunk_on negb];
    rewrite ?Nat.eqb_refl, ?until_next_chunk_free by assumption;
    cbn; auto.
Qed.

Lemma loop_digest ws tr s post :
  loop_run ws tr s -> only_prints post ->
  exists rs, digest ws rs (tr ++ post).
Proof.
  intros Hrun Hpost.
  destruct (only_prints_quiet ws post Hpost) as (Hfree & Hsent & Hch & Hrec & Hex).
  induction Hrun as [| |e He| |c b tr s Hit Hrun IH|c b h Hit].
  - exists []. unfold digest. cbn. auto.
  - exists []. unfold digest. cbn. auto.
  - exists []. unfold digest. cbn. auto.
  - exists []. unfold digest. cbn. auto.
  - destruct IH as (rs & Hc & Hr & Hs & Hx).
    destruct (iteration_digest _ _ _ _ Hit) as (r & Hbfree & Hbch & Hbrec & Hbsent).
    destruct (loop_head_quiet ws tr s post Hrun Hpost) as [Hq1 Hq2].
    exists ((c, r) :: rs). unfold digest.
    cbn [app chunks_on recognitions sent_on exchanges map flat_map fst snd].
    rewrite Nat.eqb_refl, <- !app_assoc.
    repeat split.
    + now rewrite chunks_on_app, Hbch, Hc.
    + now rewrite recognitions_app, Hbrec, Hr.
    + now rewrite sent_on_app, Hbsent, Hs.
    + rewrite until_next_chunk_app by assumption.
      rewrite recognitions_app, sent_on_app, Hq1, Hq2, Hbrec, Hbsent, !app_nil_r.
      rewrite exchanges_app_free by assumption.
      now rewrite Hx.
  - destruct (iteration_digest _ _ _ _ Hit) as (r & Hbfree & Hbch & Hbrec & Hbsent).
    assert (Hall : chunk_free ws (b ++ post)).
    { unfold chunk_free in *. rewrite forallb_app. now rewrite Hbfree, Hfree. }
    exists [(c, r)]. unfold digest.
    cbn [app chunks_on recognitions sent_on exchanges map flat_map fst snd].
    rewrite Nat.eqb_refl.
    rewrite until_next_chunk_free by assumption.
    rewrite exchanges_app_free by assumption.
    rewrite chunks_on_app, recognitions_app, sent_on_app.
    rewrite Hbch, Hbrec, Hbsent, Hsent, Hch, Hrec, Hex.
    rewrite !app_nil_r. repeat split.
Qed.

Lemma closing_only_prints s : only_prints (fst (closing s)).
Proof.
  destruct s as [[]|[e| | |]]; cbn; try reflexivity.
  destruct (is_ConnectionClosed e); reflexivity.
Qed.

Section Digest.
Variable World : Type.
Variable ws_recv : conn -> World -> outcome frame * World.
Variable recognize_google : AudioData -> World -> outcome str * World.
Variable ws_send : conn -> str -> World -> outcome unit * World.
Local Abbreviation handler := (transcribe_handler ws_recv recognize_google ws_send).

(** Every run of the handler has a per-chunk summary. *)
Lemma handler_digest fuel ws w :
  exists rs, digest ws rs (trace_of (handler fuel ws w)).
Proof.
  destruct (handler_shape World ws_recv recognize_google ws_send fuel ws w)
    as (tr & s & Hrun & Htr & _).
  fold handler in Htr. rewrite Htr.
  destruct (loop_digest ws tr s _ Hrun (closing_only_prints s)) as (rs & H).
  exists rs. exact H.
Qed.
End Digest.

(** ** Properties of the session handler *)

Lemma lit_transcript_text : text_string (lit "transcript").
Proof.
  split; [|reflexivity]. unfold lit. cbn.
  repeat (constructor; [unfold code_point, of_ascii; cbn; lia|]).
  constructor.
Qed.




Section HandlerProperties.
Variable World : Type.
Variable ws_recv : conn -> World -> outcome frame * World.
Variable recognize_google : AudioData -> World -> outcome str * World.
Variable ws_send : conn -> str -> World -> outcome unit * World.

Local Abbreviation handler := (transcribe_handler ws_recv recognize_google ws_send).
Local Abbreviation loop := (async_for ws_recv recognize_google ws_send).
Local Abbreviation body := (loop_body recognize_google ws_send).

(** One turn of the loop on a chunk: the receive, the body, and the
    rest of the loop if the body lets it go on. *)
Lemma async_for_chunk fuel ws w c w1 :
  ws_recv ws w = (Returns c, w1) ->
  loop (S fuel) ws w =
  match status_of (body ws c w1) with
  | Ret _ =>
      (Received ws (Returns c)
         :: trace_of (body ws c w1)
            ++ trace_of (loop fuel ws (snd (body ws c w1))),
       status_of (loop fuel ws (snd (body ws c w1))),
       snd (loop fuel ws (snd (body ws c w1))))
  | Stop h =>
      (Received ws (Returns c) :: trace_of (body ws c w1), Stop h,
       snd (body ws c w1))
  end.
Proof.
  intros Hrecv. cbn [async_for].
  unfold bind at 1, ws_anext, try_except, bind, await, ret, trace_of, status_of.
  rewrite Hrecv. cbn beta iota.
  destruct (loop_body recognize_google ws_send ws c w1) as [[b [[]|h]] w2];
    cbn [fst snd]; [|reflexivity].
  now destruct (async_for ws_recv recognize_google ws_send fuel ws w2)
    as [[t s] w3].
Qed.

(** The body on a chunk for which the recogniser returns a text that
    can be printed: the request, the line, the send, and after the
    send nothing but console output. *)
Lemma loop_body_heard ws c w1 text w2 r w3 :
  recognize_google (audio_of c) w1 = (Returns text, w2) ->
  encodable (recognized_line text) = true ->
  ws_send ws (transcript_message text) w2 = (r, w3) ->
  exists after s,
    body ws c w1 =
      (Recognition (audio_of c) (Returns text)
         :: Printed (recognized_line text)
         :: Sending ws (transcript_message text) r :: after, s, w3) /\
    only_prints after /\
    (r = Returns tt -> after = [] /\ s = Ret tt).
Proof.
  intros Hrec Henc Hsend.
  unfold loop_body, try_except, bind, lift_init, call_sync, await, print, ret.
  change (AudioData_init c 16000 2) with (@inr exn _ (audio_of c)).
  cbn beta iota. rewrite Hrec. cbn beta iota.
  change (lit "Recognized: " ++ text) with (recognized_line text).
  rewrite Henc. cbn beta iota.
  change (Json.dumps [(lit "transcript", text)]) with (transcript_message text).
  rewrite Hsend. settle_prints.
  destruct r as [[]|e|]; cbn.
  - exists [], (Ret tt). now repeat split.
  - destruct e; cbn; settle_prints; cbn;
      first [ eexists [], _;
              split; [reflexivity | split; [reflexivity | discriminate]]
            | eexists [_], _;
              split; [reflexivity | split; [reflexivity | discriminate]] ].
  - eexists [], _.
    split; [reflexivity | split; [reflexivity | discriminate]].
Qed.

(** A receive that gives no chunk is the last event of the loop. *)
Lemma async_for_no_chunk fuel ws w :
  (forall c, fst (ws_recv ws w) <> Returns c) ->
  trace_of (loop (S fuel) ws w) = [Received ws (fst (ws_recv ws w))].
Proof.
  intros Hnone. cbn [async_for].
  unfold bind at 1, ws_anext, try_except, bind, await, ret, trace_of.
  destruct (ws_recv ws w) as [[c|e|] w1]; cbn [fst] in Hnone |- *.
  - now destruct (Hnone c).
  - now destruct e.
  - reflexivity.
Qed.

Lemma hears_all_loop ws w script w' :
  hears_all ws_recv recognize_google ws_send ws w script w' ->
  Forall (fun p => encodable (recognized_line (snd p)) = true) script ->
  forall fuel,
    (length script <= fuel)%nat ->
    ((length script < fuel)%nat ->
     forall c, fst (ws_recv ws w') <> Returns c) ->
    chunks_on ws (trace_of (loop fuel ws w)) = map fst script /\
    recognitions (trace_of (loop fuel ws w))
    = map (fun p => (audio_of (fst p), Returns (snd p))) script /\
    sent_on ws (trace_of (loop fuel ws w))
    = map (fun p => transcript_message (snd p)) script.
Proof.
  intros Hhears. induction Hhears
    as [w|w c w1 text w2 r w3 rest w' Hrecv Hrec Hsend Hnext Hrest IH];
    intros Henc fuel Hfuel Hlast.
  - destruct fuel as [|fuel]; [repeat split|].
    rewrite (async_for_no_chunk fuel ws w (Hlast ltac:(cbn; lia))).
    destruct (fst (ws_recv ws w)) as [c| |] eqn:Hr; [|repeat split..].
    exfalso. now apply (Hlast ltac:(cbn; lia) c).
  - apply Forall_cons_iff in Henc as [Htext Henc]. cbn [snd] in Htext.
    destruct (loop_body_heard ws c w1 text w2 r w3 Hrec Htext Hsend)
      as (after & s & Hbody & Hafter & Hret).
    destruct (only_prints_quiet ws after Hafter) as (_ & Has & Hac & Har & _).
    destruct fuel as [|fuel]; [cbn in Hfuel; lia|].
    cbn [length] in Hfuel, Hlast. cbn [map fst snd].
    rewrite (async_for_chunk _ ws w c w1 Hrecv).
    unfold status_of, trace_of. rewrite Hbody. cbn [fst snd].
    assert (Hrun : forall tail,
      chunks_on ws tail = map fst rest ->
      recognitions tail
      = map (fun p => (audio_of (fst p), Returns (snd p))) rest ->
      sent_on ws tail = map (fun p => transcript_message (snd p)) rest ->
      chunks_on ws
        (Received ws (Returns c)
           :: (Recognition (audio_of c) (Returns text)
                 :: Printed (recognized_line text)
                 :: Sending ws (transcript_message text) r :: after) ++ tail)
      = c :: map fst rest /\
      recognitions
        (Received ws (Returns c)
           :: (Recognition (audio_of c) (Returns text)
                 :: Printed (recognized_line text)
                 :: Sending ws (transcript_message text) r :: after) ++ tail)
      = (audio_of c, Returns text)
        :: map (fun p => (audio_of (fst p), Returns (snd p))) rest /\
      sent_on ws
        (Received ws (Returns c)
           :: (Recognition (audio_of c) (Returns text)
                 :: Printed (recognized_line text)
                 :: Sending ws (transcript_message text) r :: after) ++ tail)
      = transcript_message text
        :: map (fun p => transcript_message (snd p)) rest).
    { intros tail H1 H2 H3.
      cbn [app chunks_on recognitions sent_on]. rewrite Nat.eqb_refl.
      rewrite chunks_on_app, recognitions_app, sent_on_app.
      rewrite Has, Hac, Har, H1, H2, H3. repeat split. }
    destruct s as [[]|h].
    + destruct (IH Henc fuel ltac:(lia) ltac:(intros; apply Hlast; lia))
        as (H1 & H2 & H3).
      apply Hrun; assumption.
    + destruct rest as [|p rest].
      * rewrite <- (app_nil_r (_ :: _ :: _ :: after)).
        apply Hrun; reflexivity.
      * destruct (Hret (Hnext ltac:(discriminate))) as [_ Habs].
        discriminate Habs.
Qed.

(** C1, for texts that can be printed.  When the connection delivers
    the chunks of
    [script] one after the other and the recogniser returns for each
    the text paired with it, a text that the console can encode, a run
    of the handler that takes these [N] chunks and no other (it stops
    after the last of them, or goes on to a receive that gives no
    chunk) receives exactly them, makes one recognition request for
    each, on its audio, and passes to [websocket.send] exactly [N]
    messages: the transcript of the text of the first chunk, then of
    the second, and so on. *)
Theorem C1_one_transcript_per_chunk_in_order
  (ws : conn) (w w' : World) (script : list (frame * str)) (fuel : nat) :
  hears_all ws_recv recognize_google ws_send ws w script w' ->
  Forall (fun p => encodable (recognized_line (snd p)) = true) script ->
  (length script <= fuel)%nat ->
  ((length script < fuel)%nat -> forall c, fst (ws_recv ws w') <> Returns c) ->
  chunks_on ws (trace_of (handler fuel ws w)) = map fst script /\
  recognitions (trace_of (handler fuel ws w))
  = map (fun p => (audio_of (fst p), Returns (snd p))) script /\
  sent_on ws (trace_of (handler fuel ws w))
  = map (fun p => transcript_message (snd p)) script.
Proof.
  intros Hhears Henc Hfuel Hlast.
  destruct (hears_all_loop ws w script w' Hhears Henc fuel Hfuel Hlast)
    as (H1 & H2 & H3).
  rewrite (handler_unfold World ws_recv recognize_google ws_send).
  unfold trace_of at 1 3 5. cbn [fst].
  destruct (only_prints_quiet ws _
              (closing_only_prints (status_of (loop fuel ws w))))
    as (_ & Hs & Hc & Hr & _).
  cbn [chunks_on recognitions sent_on].
  rewrite chunks_on_app, recognitions_app, sent_on_app.
  rewrite Hs, Hc, Hr, H1, H2, H3, !app_nil_r. repeat split.
Qed.


(** C7. In every run of the handler, whatever the fuel, each received
    chunk is answered by at most one message, and by one only if its
    recognition call returned a text; so there are never more messages
    than chunks. *)
Theorem C7_at_most_one_result_per_chunk
  (fuel : nat) (ws : conn) (w : World) :
  let tr := trace_of (handler fuel ws w) in
  length (exchanges ws tr) = length (chunks_on ws tr) /\
  Forall (fun x => (length (replies x) <= 1)%nat /\
                   (replies x <> [] ->
                    exists text, heard x = [(audio_of (chunk x), Returns text)]))
         (exchanges ws tr) /\
  (length (sent_on ws tr) <= length (chunks_on ws tr))%nat.
Proof.
  intros tr.
  destruct (handler_digest World ws_recv recognize_google ws_send fuel ws w)
    as (rs & Hc & Hr & Hs & Hx).
  fold tr in Hc, Hr, Hs, Hx.
  rewrite Hx, Hc, Hs, !length_map. split; [reflexivity|]. split.
  - clear. induction rs as [|[c r] rs IH]; cbn; constructor; auto.
    cbn. destruct r as [text|e|]; cbn;
      try destruct (encodable (recognized_line text)); cbn;
      split; try lia; try congruence.
    intros _. now exists text.
  - clear. induction rs as [|[c r] rs IH]; cbn; [lia|].
    rewrite length_app. destruct r as [text|e|]; cbn;
      try destruct (encodable (recognized_line text)); cbn; lia.
Qed.


End HandlerProperties.

(** ** How a session ends *)

Lemma closed_has_no_diagnostic e :
  is_ConnectionClosed e = true -> diagnostic e = None.
Proof. destruct e; cbn; congruence. Qed.

Lemma diagnostic_kinds e :
  (e = UnknownValueError \/ exists d, e = RequestError d) <->
  exists line, diagnostic e = Some line.
Proof.
  split.
  - intros [->|[d ->]]; cbn; eauto.
  - intros [line H]. destruct e; cbn in H; try discriminate; eauto.
Qed.

(** An iteration that lets the loop go on saw no closure; one that
    breaks it on an exception ends with the call that raised it. *)
Lemma iteration_closure ws c b s ev e :
  iteration ws c b s -> In ev b -> raised_by ev = Some e ->
  is_ConnectionClosed e = true ->
  s = Stop (Raise e) /\ exists pre, b = pre ++ [ev].
Proof.
  intros Hit Hin Hev Hcc.
  pose proof (closed_has_no_diagnostic e Hcc) as Hnone.
  destruct Hit; cbn in Hin;
    repeat match goal with
           | H : _ \/ _ |- _ => destruct H as [<-|H]
           | H : False |- _ => destruct H
           end;
    cbn in Hev; try discriminate;
    injection Hev as ->; try congruence.
  - split; [reflexivity|]. now exists [Recognition (audio_of c) (Returns text);
                                         Printed (recognized_line text)].
  - split; [reflexivity|]. now exists [].
Qed.

(** A closure seen by the loop is the last thing in its trace, and the
    loop ends on it: silently for the [ConnectionClosedOK] that ends
    the iteration, with the exception propagating otherwise. *)
Lemma loop_run_closure ws tr s ev e :
  loop_run ws tr s -> In ev tr -> raised_by ev = Some e ->
  is_ConnectionClosed e = true ->
  (exists pre, tr = pre ++ [ev]) /\
  (s = Stop (Raise e) \/
   (ev = Received ws (Raises ConnectionClosedOK) /\ s = Ret tt)).
Proof.
  intros Hrun. revert ev e.
  induction Hrun as [| |e0 He0| |c b tr s Hit Hrun IH|c b h Hit];
    intros ev e Hin Hev Hcc.
  - destruct Hin.
  - destruct Hin as [<-|[]]. split; [now exists []|]. right. auto.
  - destruct Hin as [<-|[]]. cbn in Hev. injection Hev as ->.
    split; [now exists []|]. now left.
  - destruct Hin as [<-|[]]. discriminate.
  - destruct Hin as [<-|Hin]; [discriminate|].
    apply in_app_or in Hin as [Hin|Hin].
    + destruct (iteration_closure _ _ _ _ _ _ Hit Hin Hev Hcc) as [Habs _].
      discriminate.
    + destruct (IH ev e Hin Hev Hcc) as [[pre ->] Hs]. split; [|exact Hs].
      exists (Received ws (Returns c) :: b ++ pre).
      cbn. now rewrite app_assoc.
  - destruct Hin as [<-|Hin]; [discriminate|].
    destruct (iteration_closure _ _ _ _ _ _ Hit Hin Hev Hcc) as [-> [pre ->]].
    split; [|now left]. now exists (Received ws (Returns c) :: pre).
Qed.

(** A loop that returned did so at the end of the iteration. *)
Lemma loop_run_end ws tr :
  loop_run ws tr (Ret tt) ->
  exists pre, tr = pre ++ [Received ws (Raises ConnectionClosedOK)].
Proof.
  remember (Ret tt) as s eqn:Hs. intros Hrun. revert Hs.
  induction Hrun as [| |e0 He0| |c b tr s Hit Hrun IH|c b h Hit]; intros Hs;
    try discriminate.
  - now exists [].
  - destruct (IH Hs) as [pre ->].
    exists (Received ws (Returns c) :: b ++ pre). cbn. now rewrite app_assoc.
Qed.

(** A loop left by an exception ends on the call that raised it, and
    when that call is a recognition request or a send, no inner
    [except] clause matches the exception; or it ends on a recognition
    request that returned a text whose log line the console refused. *)
Lemma loop_run_raise ws tr e :
  loop_run ws tr (Stop (Raise e)) ->
  (exists pre ev,
     tr = pre ++ [ev] /\ raised_by ev = Some e /\
     (is_body_call ev = true -> diagnostic e = None)) \/
  (e = UnicodeEncodeError /\
   exists pre c text,
     tr = pre ++ [Received ws (Returns c);
                  Recognition (audio_of c) (Returns text)] /\
     encodable (recognized_line text) = false).
Proof.
  remember (Stop (Raise e)) as s eqn:Hs. intros Hrun. revert Hs.
  induction Hrun as [| |e0 He0| |c b tr s Hit Hrun IH|c b h Hit]; intros Hs;
    try discriminate.
  - injection Hs as ->. left. exists [], (Received ws (Raises e)).
    repeat split. discriminate.
  - destruct (IH Hs) as [(pre & ev & -> & Hev & Hbody)|(-> & pre & c' & text & -> & Henc)].
    + left. exists (Received ws (Returns c) :: b ++ pre), ev.
      cbn. now rewrite app_assoc.
    + right. split; [reflexivity|].
      exists (Received ws (Returns c) :: b ++ pre), c', text.
      cbn. now rewrite app_assoc.
  - injection Hs as ->. inversion Hit; subst.
    + left.
      exists [Received ws (Returns c); Recognition (audio_of c) (Returns text);
              Printed (recognized_line text)],
             (Sending ws (transcript_message text) (Raises e)). now repeat split.
    + right. split; [reflexivity|]. now exists [], c, text.
    + left.
      exists [Received ws (Returns c)], (Recognition (audio_of c) (Raises e)).
      now repeat split.
Qed.

(** A closure that leaves the loop was raised by its last call. *)
Lemma loop_run_closed ws tr e :
  loop_run ws tr (Stop (Raise e)) -> is_ConnectionClosed e = true ->
  exists pre ev, tr = pre ++ [ev] /\ raised_by ev = Some e.
Proof.
  intros Hrun Hcc.
  destruct (loop_run_raise ws tr e Hrun)
    as [(pre & ev & Htr & Hev & _)|(-> & _)]; [|discriminate Hcc].
  now exists pre, ev.
Qed.

Lemma in_handler_trace (tr post : list event) (ev : event) (line : str) :
  only_prints post -> is_print ev = false ->
  In ev (Printed line :: tr ++ post) -> In ev tr.
Proof.
  intros Hpost Hev [<-|Hin]; [discriminate|].
  apply in_app_or in Hin as [Hin|Hin]; [exact Hin|].
  unfold only_prints in Hpost. rewrite forallb_forall in Hpost.
  apply Hpost in Hin. congruence.
Qed.

Lemma split_at {A} (before after : list A) (x : A) :
  nth_error (before ++ x :: after) (length before) = Some x /\
  before = firstn (length before) (before ++ x :: after) /\
  after = skipn (S (length before)) (before ++ x :: after).
Proof.
  induction before as [|y before (IH1 & IH2 & IH3)]; cbn [app length].
  - repeat split.
  - repeat split; [exact IH1 | cbn [firstn]; f_equal; exact IH2 | exact IH3].
Qed.

(** A send is the third step of its iteration, after the recognition
    request that returned the text and the line that logs it. *)
Lemma iteration_send_context ws c b s before ws' m r after :
  iteration ws c b s -> b = before ++ Sending ws' m r :: after ->
  exists text,
    before = [Recognition (audio_of c) (Returns text);
              Printed (recognized_line text)] /\
    m = transcript_message text /\ ws' = ws.
Proof.
  intros Hit Hb.
  destruct (split_at before after (Sending ws' m r)) as (Hn & Hbefore & _).
  rewrite <- Hb in Hn, Hbefore. clear Hb.
  destruct Hit;
    destruct (length before) as [|[|[|[|[|n]]]]]; cbn in Hn, Hbefore;
    try discriminate Hn; injection Hn as <- <- <-; eauto.
Qed.

(** A recognition request that raised one of the two recognition
    failures is the first step of its iteration, the diagnostic line is
    all that follows it there, and the loop goes on. *)
Lemma iteration_failure_context ws c b s before a e after line :
  iteration ws c b s -> b = before ++ Recognition a (Raises e) :: after ->
  diagnostic e = Some line ->
  before = [] /\ a = audio_of c /\ after = [Printed line] /\ s = Ret tt.
Proof.
  intros Hit Hb Hdiag.
  destruct (split_at before after (Recognition a (Raises e)))
    as (Hn & Hbefore & Hafter).
  rewrite <- Hb in Hn, Hbefore, Hafter. clear Hb.
  destruct Hit;
    destruct (length before) as [|[|[|[|[|n]]]]]; cbn in Hn, Hbefore, Hafter;
    try discriminate Hn; injection Hn as <- <-; subst;
    repeat split; congruence.
Qed.

(** Every call made by the loop body lies in one iteration of the
    loop, after the receive of the chunk of that iteration; when that
    iteration lets the loop go on, what follows it is the rest of the
    loop. *)
Lemma loop_run_body_call ws tr s : loop_run ws tr s ->
  forall pre x post,
    tr = pre ++ x :: post -> is_body_call x = true ->
    exists pre0 c b s' before after rest,
      iteration ws c b s' /\ b = before ++ x :: after /\
      pre = pre0 ++ Received ws (Returns c) :: before /\
      post = after ++ rest /\
      (s' = Ret tt -> loop_run ws rest s).
Proof.
  induction 1 as [| |e0 He0| |c b tr s Hit Hrun IH|c b h Hit];
    intros pre x post Htr Hx.
  - now destruct pre.
  - destruct pre as [|p [|q pre]]; try discriminate.
    injection Htr as <-. discriminate.
  - destruct pre as [|p [|q pre]]; try discriminate.
    injection Htr as <-. discriminate.
  - destruct pre as [|p [|q pre]]; try discriminate.
    injection Htr as <-. discriminate.
  - destruct pre as [|p pre]; cbn in Htr.
    + injection Htr as <- _. discriminate.
    + injection Htr as <- Htr.
      apply app_eq_app in Htr as [l [[Hb Hl]|[Hpre Htr']]].
      * destruct l as [|y l].
        -- cbn in Hl. rewrite app_nil_r in Hb. subst b.
           destruct (IH [] x post (eq_sym Hl) Hx)
             as (pre0 & c' & b' & s' & before & after & rest & _ & _ & Habs & _).
           now destruct pre0.
        -- cbn in Hl. injection Hl as <- ->.
           exists [], c, b, (Ret tt), pre, l, tr. now repeat split.
      * destruct (IH l x post Htr' Hx)
          as (pre0 & c' & b' & s' & before & after & rest
              & Hit' & Hb' & Hl & Hpost & Hrest).
        exists (Received ws (Returns c) :: b ++ pre0), c', b', s', before, after, rest.
        repeat split; auto. subst pre l. cbn. now rewrite <- app_assoc.
  - destruct pre as [|p pre]; cbn in Htr.
    + injection Htr as <- _. discriminate.
    + injection Htr as <- Htr.
      exists [], c, b, (Stop h), pre, post, []. rewrite app_nil_r.
      repeat split; auto. discriminate.
Qed.

(** A loop trace is empty only when the fuel is used up; otherwise it
    starts with a receive. *)
Lemma loop_run_head ws tr s :
  loop_run ws tr s ->
  match tr ++ fst (closing s) with
  | [] => s = Stop Unfinished
  | ev :: _ => exists r, ev = Received ws r
  end.
Proof. destruct 1; cbn; eauto. Qed.

Ltac run_monad :=
  cbv beta iota zeta
      delta [bind print try_except ws_anext await ret raise loop_body
             lift_init call_sync trace_of status_of fst snd];
  cbn [app]; settle_prints; cbv beta iota zeta; cbn [app].

Section SessionEnd.
Variable World : Type.
Variable ws_recv : conn -> World -> outcome frame * World.
Variable recognize_google : AudioData -> World -> outcome str * World.
Variable ws_send : conn -> str -> World -> outcome unit * World.
Local Abbreviation handler := (transcribe_handler ws_recv recognize_google ws_send).
Local Abbreviation loop := (async_for ws_recv recognize_google ws_send).
Local Abbreviation body := (loop_body recognize_google ws_send).

(** A call that raised a [ConnectionClosed] other than the end of the
    iteration is followed by the closing line and nothing else, and the
    handler returns. *)
Lemma closure_ends_session fuel ws w ev e :
  In ev (trace_of (handler fuel ws w)) ->
  raised_by ev = Some e -> is_ConnectionClosed e = true ->
  ev <> Received ws (Raises ConnectionClosedOK) ->
  status_of (handler fuel ws w) = Ret tt /\
  exists pre,
    trace_of (handler fuel ws w) = pre ++ [ev; Printed closed_line].
Proof.
  intros Hin Hev Hcc Hne.
  destruct (handler_shape World ws_recv recognize_google ws_send fuel ws w)
    as (tr & s & Hrun & Htr & Hst).
  fold handler in Htr, Hst. rewrite Htr in Hin |- *. rewrite Hst.
  apply in_handler_trace in Hin;
    [|apply closing_only_prints|destruct ev as [|? []|? []|? ? []]; cbn in *; congruence].
  destruct (loop_run_closure ws tr s ev e Hrun Hin Hev Hcc) as [[pre ->] [->|[-> _]]];
    [|congruence].
  unfold closing. rewrite Hcc. cbn [fst snd]. split; [reflexivity|].
  exists (Printed established_line :: pre). cbn. now rewrite <- app_assoc.
Qed.

(** C5. When [websocket.send] raises [ConnectionClosed] in a run of the
    handler, nothing follows it in the trace but the line printed by
    the [except ConnectionClosed] clause, and the handler returns
    instead of raising.  The same holds, with the same line, when the
    receive raises [ConnectionClosedError]: both closures leave through
    the same clause. *)
Theorem C5_write_failure_ends_session_cleanly
  (fuel : nat) (ws : conn) (w : World) :
  (forall m e,
     In (Sending ws m (Raises e)) (trace_of (handler fuel ws w)) ->
     is_ConnectionClosed e = true ->
     status_of (handler fuel ws w) = Ret tt /\
     exists pre,
       trace_of (handler fuel ws w)
       = pre ++ [Sending ws m (Raises e); Printed closed_line]) /\
  (In (Received ws (Raises ConnectionClosedError)) (trace_of (handler fuel ws w)) ->
   status_of (handler fuel ws w) = Ret tt /\
   exists pre,
     trace_of (handler fuel ws w)
     = pre ++ [Received ws (Raises ConnectionClosedError); Printed closed_line]).
Proof.
  split.
  - intros m e Hin Hcc.
    now apply (closure_ends_session fuel ws w _ e Hin).
  - intros Hin.
    now apply (closure_ends_session fuel ws w _ ConnectionClosedError Hin).
Qed.

(** Iterations that let the loop go on are the start of every longer
    run of the loop, which goes on from the world they leave. *)
Lemma goes_on_loop ws n w pre w0 :
  goes_on ws_recv recognize_google ws_send ws n w pre w0 ->
  forall k,
    loop (n + k) ws w =
    (pre ++ trace_of (loop k ws w0), status_of (loop k ws w0),
     snd (loop k ws w0)).
Proof.
  induction 1 as [w|n w c w1 b w2 tr w' Hrecv Hbody Hgo IH]; intros k.
  - cbn [Nat.add app]. unfold trace_of, status_of.
    now destruct (loop k ws w) as [[t s] w1].
  - cbn [Nat.add].
    rewrite (async_for_chunk World ws_recv recognize_google ws_send
               (n + k) ws w c w1 Hrecv).
    unfold trace_of, status_of in *. rewrite Hbody. cbn [fst snd].
    rewrite IH. cbn [fst snd app]. now rewrite <- app_assoc.
Qed.

(** The loop body on a chunk whose recognition raised one of the two
    recognition failures. *)
Lemma failed_chunk_body ws chunk w1 e w2 line :
  recognize_google (audio_of chunk) w1 = (Raises e, w2) ->
  diagnostic e = Some line ->
  body ws chunk w1 =
  ([Recognition (audio_of chunk) (Raises e); Printed line], Ret tt, w2).
Proof.
  intros Hrec Hdiag. unfold loop_body. run_monad.
  change (AudioData_init chunk 16000 2) with (@inr exn _ (audio_of chunk)).
  run_monad. rewrite Hrec. run_monad.
  destruct e; cbn in Hdiag; try discriminate; injection Hdiag as <-;
    run_monad; settle_prints; reflexivity.
Qed.

(** The loop body on a chunk whose recognition raised an exception
    that no inner [except] clause matches. *)
Lemma raised_chunk_body ws chunk w1 e w2 :
  recognize_google (audio_of chunk) w1 = (Raises e, w2) ->
  diagnostic e = None ->
  body ws chunk w1 =
  ([Recognition (audio_of chunk) (Raises e)], Stop (Raise e), w2).
Proof.
  intros Hrec Hdiag. unfold loop_body. run_monad.
  change (AudioData_init chunk 16000 2) with (@inr exn _ (audio_of chunk)).
  run_monad. rewrite Hrec. run_monad.
  destruct e; cbn in Hdiag; try discriminate; reflexivity.
Qed.

(** The handler on a chunk whose recognition raised an exception that
    no [except] clause matches, any number of iterations into the
    session. *)
Lemma raised_chunk_step n k ws w pre w0 chunk w1 e w2 :
  goes_on ws_recv recognize_google ws_send ws n w pre w0 ->
  ws_recv ws w0 = (Returns chunk, w1) ->
  recognize_google (audio_of chunk) w1 = (Raises e, w2) ->
  diagnostic e = None ->
  is_ConnectionClosed e = false ->
  handler (n + S k) ws w =
    (Printed established_line
       :: pre ++ [Received ws (Returns chunk);
                  Recognition (audio_of chunk) (Raises e)],
     Stop (Raise e), w2).
Proof.
  intros Hgo Hrecv Hrec Hdiag Hcc.
  rewrite (handler_unfold World ws_recv recognize_google ws_send).
  rewrite (goes_on_loop ws n w pre w0 Hgo (S k)).
  rewrite (async_for_chunk World ws_recv recognize_google ws_send
             k ws w0 chunk w1 Hrecv).
  rewrite (raised_chunk_body ws chunk w1 e w2 Hrec Hdiag).
  unfold trace_of, status_of, closing. cbn [fst snd]. rewrite Hcc.
  cbn [fst snd]. now rewrite app_nil_r.
Qed.

(** The handler after a chunk whose recognition raised one of the two
    recognition failures, any number of iterations into the session. *)
Lemma failed_chunk_step n k ws w pre w0 chunk w1 e w2 line :
  goes_on ws_recv recognize_google ws_send ws n w pre w0 ->
  ws_recv ws w0 = (Returns chunk, w1) ->
  recognize_google (audio_of chunk) w1 = (Raises e, w2) ->
  diagnostic e = Some line ->
  exists tr,
    trace_of (handler k ws w2) = Printed established_line :: tr /\
    handler (n + S k) ws w =
      (Printed established_line
         :: pre ++ Received ws (Returns chunk)
                :: Recognition (audio_of chunk) (Raises e)
                :: Printed line :: tr,
       status_of (handler k ws w2),
       snd (handler k ws w2)).
Proof.
  intros Hgo Hrecv Hrec Hdiag.
  rewrite !(handler_unfold World ws_recv recognize_google ws_send).
  fold loop.
  rewrite (goes_on_loop ws n w pre w0 Hgo (S k)).
  rewrite (async_for_chunk World ws_recv recognize_google ws_send
             k ws w0 chunk w1 Hrecv).
  fold body loop.
  rewrite (failed_chunk_body ws chunk w1 e w2 line Hrec Hdiag).
  unfold trace_of, status_of. cbn [fst snd app].
  eexists. split; [reflexivity|].
  f_equal. f_equal. f_equal. rewrite <- app_assoc. reflexivity.
Qed.

(** Every call made by the loop body lies in one iteration of the
    loop, after the receive of the chunk of that iteration; when that
    iteration lets the loop go on, what follows it starts with the next
    receive, unless the fuel is used up there. *)
Lemma handler_body_call fuel ws w pre x post :
  trace_of (handler fuel ws w) = pre ++ x :: post -> is_body_call x = true ->
  exists pre0 c b s' before after rest,
    iteration ws c b s' /\ b = before ++ x :: after /\
    pre = pre0 ++ Received ws (Returns c) :: before /\
    post = after ++ rest /\
    (s' = Ret tt ->
     match rest with
     | [] => status_of (handler fuel ws w) = Stop Unfinished
     | ev :: _ => exists r, ev = Received ws r
     end).
Proof.
  intros Htr Hx.
  destruct (handler_shape World ws_recv recognize_google ws_send fuel ws w)
    as (tr & s & Hrun & Hshape & Hst).
  fold handler in Hshape, Hst. rewrite Hshape in Htr.
  pose proof (closing_only_prints s) as Hclosing.
  destruct pre as [|p pre]; cbn in Htr.
  - injection Htr as <- _. discriminate.
  - injection Htr as <- Htr.
    assert (Hnot : forall l l', fst (closing s) = l ++ x :: l' -> False).
    { intros l l' Heq. unfold only_prints in Hclosing.
      rewrite Heq, forallb_app in Hclosing. cbn in Hclosing.
      destruct x; try discriminate;
        now rewrite andb_false_r in Hclosing. }
    apply app_eq_app in Htr as [l [[Hb Hl]|[Hpre Htr']]].
    + destruct l as [|y l].
      * cbn in Hl. exfalso. now apply (Hnot [] post).
      * cbn in Hl. injection Hl as <- ->.
        destruct (loop_run_body_call ws tr s Hrun pre x l Hb Hx)
          as (pre0 & c & b & s' & before & after & rest
              & Hit & Hb' & Hpre & Hl & Hrest).
        exists (Printed established_line :: pre0), c, b, s', before, after,
               (rest ++ fst (closing s)).
        repeat split; auto.
        -- now rewrite Hpre.
        -- now rewrite Hl, app_assoc.
        -- intros Hs'. pose proof (loop_run_head ws rest s (Hrest Hs')) as Hhead.
           destruct (rest ++ fst (closing s)); [|exact Hhead].
           rewrite Hst, Hhead. reflexivity.
    + exfalso. now apply (Hnot l post).
Qed.

(** C3, with the ways a session ends.  (1) When the recognition call
    for a chunk raises
    [UnknownValueError] or [RequestError], however many chunks the
    session has been through, the handler prints the diagnostic of that
    failure and goes on: from there the session runs exactly as a
    session started on the rest of the input, with the same status and
    the same events.  (2) In every run, a recognition request that
    raised one of the two failures is directly followed by its
    diagnostic line and then by the next receive; the trace stops
    there only when the fuel of the run is used up, the session itself
    having neither returned nor raised.  (3) A session that has
    returned did so on a transport closure: the last call it made to
    the outside raised [ConnectionClosed], followed at most by the
    closing line.  (4) Closure is not the only end of a session: when
    the recognition call raises an exception that is neither of the two
    failures nor a [ConnectionClosed], however many chunks the session
    has been through, the session ends there with that exception
    leaving the handler, whatever the connection still has to
    deliver. *)
Theorem C3_recognition_failure_does_not_end_session (ws : conn) :
  (forall n k w pre w0 chunk w1 e w2,
     goes_on ws_recv recognize_google ws_send ws n w pre w0 ->
     ws_recv ws w0 = (Returns chunk, w1) ->
     recognize_google (audio_of chunk) w1 = (Raises e, w2) ->
     (e = UnknownValueError \/ exists d, e = RequestError d) ->
     exists line tr,
       diagnostic e = Some line /\
       trace_of (handler k ws w2) = Printed established_line :: tr /\
       handler (n + S k) ws w =
         (Printed established_line
            :: pre ++ Received ws (Returns chunk)
                   :: Recognition (audio_of chunk) (Raises e)
                   :: Printed line :: tr,
          status_of (handler k ws w2),
          snd (handler k ws w2))) /\
  (forall fuel w pre a e post,
     trace_of (handler fuel ws w) = pre ++ Recognition a (Raises e) :: post ->
     (e = UnknownValueError \/ exists d, e = RequestError d) ->
     exists line rest,
       diagnostic e = Some line /\
       post = Printed line :: rest /\
       match rest with
       | [] => status_of (handler fuel ws w) = Stop Unfinished
       | ev :: _ => exists r, ev = Received ws r
       end) /\
  (forall fuel w,
     status_of (handler fuel ws w) = Ret tt ->
     exists pre ev e,
       raised_by ev = Some e /\ is_ConnectionClosed e = true /\
       (trace_of (handler fuel ws w) = pre ++ [ev] \/
        trace_of (handler fuel ws w) = pre ++ [ev; Printed closed_line])) /\
  (forall n k w pre w0 chunk w1 e w2,
     goes_on ws_recv recognize_google ws_send ws n w pre w0 ->
     ws_recv ws w0 = (Returns chunk, w1) ->
     recognize_google (audio_of chunk) w1 = (Raises e, w2) ->
     diagnostic e = None ->
     is_ConnectionClosed e = false ->
     handler (n + S k) ws w =
       (Printed established_line
          :: pre ++ [Received ws (Returns chunk);
                     Recognition (audio_of chunk) (Raises e)],
        Stop (Raise e), w2)).
Proof.
  split; [|split; [|split]]; [| | |exact (fun n k => raised_chunk_step n k ws)].
  - intros n k w pre w0 chunk w1 e w2 Hgo Hrecv Hrec Hkind.
    apply diagnostic_kinds in Hkind as [line Hdiag].
    destruct (failed_chunk_step n k ws w pre w0 chunk w1 e w2 line
                Hgo Hrecv Hrec Hdiag) as (tr & Htr & Hrun).
    now exists line, tr.
  - intros fuel w pre a e post Htr Hkind.
    apply diagnostic_kinds in Hkind as [line Hdiag].
    destruct (handler_body_call fuel ws w pre _ post Htr eq_refl)
      as (pre0 & c & b & s' & before & after & rest
          & Hit & Hb & Hpre & Hpost & Hrest).
    destruct (iteration_failure_context _ _ _ _ _ _ _ _ _ Hit Hb Hdiag)
      as (_ & _ & -> & ->).
    exists line, rest. split; [exact Hdiag|]. split; [exact Hpost|].
    now apply Hrest.
  - intros fuel w Hret.
    destruct (handler_shape World ws_recv recognize_google ws_send fuel ws w)
      as (tr & s & Hrun & Htr & Hst).
    fold handler in Htr, Hst. rewrite Htr. rewrite Hst in Hret.
    destruct s as [[]|[e| | |]]; cbn in Hret |- *; try discriminate.
    + destruct (loop_run_end ws tr Hrun) as [pre ->].
      exists (Printed established_line :: pre),
             (Received ws (Raises ConnectionClosedOK)), ConnectionClosedOK.
      repeat split. left. now rewrite app_nil_r.
    + destruct (is_ConnectionClosed e) eqn:Hcc; cbn in Hret |- *;
        [|discriminate].
      destruct (loop_run_closed ws tr e Hrun Hcc) as (pre & ev & -> & Hev).
      exists (Printed established_line :: pre), ev, e.
      repeat split; auto. right. cbn. now rewrite <- app_assoc.
Qed.

(** C10. When the recognition call for a chunk raises an exception that
    is neither of the two recognition failures nor a [ConnectionClosed],
    no [except] clause of the handler matches it: the handler ends with
    that exception propagating, having sent nothing for the chunk and
    without printing the closing line. *)
Theorem C10_other_exceptions_escape_the_handler
  (fuel : nat) (ws : conn) (w : World) (chunk : frame) (w1 w2 : World) (e : exn) :
  ws_recv ws w = (Returns chunk, w1) ->
  recognize_google (audio_of chunk) w1 = (Raises e, w2) ->
  diagnostic e = None ->
  is_ConnectionClosed e = false ->
  handler (S fuel) ws w =
    ([Printed established_line; Received ws (Returns chunk);
      Recognition (audio_of chunk) (Raises e)],
     Stop (Raise e), w2).
Proof.
  intros Hrecv Hrec Hdiag Hcc.
  unfold handler, transcribe_handler. cbn [async_for].
  run_monad. rewrite Hrecv. run_monad.
  change (AudioData_init chunk 16000 2) with (@inr exn _ (audio_of chunk)).
  run_monad. rewrite Hrec. run_monad.
  destruct e; cbn in Hdiag, Hcc; try discriminate; reflexivity.
Qed.

End SessionEnd.

(** ** Concrete runs *)

Module Runs.
Import Samples.

(** The example of the specification: three chunks, two messages. *)
Example hello_silence_world_sent :
  sent_on ws1 (trace_of (Script.handler 4 ws1 hello_silence_world))
  = [transcript_message (lit "hello"); transcript_message (lit "world")] /\
  status_of (Script.handler 4 ws1 hello_silence_world) = Ret tt.
Proof. split; reflexivity. Qed.

(** The text on the wire: the key, a colon and a space, the value. *)
Example hello_message :
  transcript_message (lit "hello")
  = lit "{" ++ [34] ++ lit "transcript" ++ [34] ++ lit ": "
    ++ [34] ++ lit "hello" ++ [34] ++ lit "}".
Proof. reflexivity. Qed.

(** Escapes: a quote, a line feed, e acute, an emoji, a backslash. *)
Example escaped_message :
  transcript_message [34; 10; 233; 0x1F600; 92]
  = lit "{" ++ [34] ++ lit "transcript" ++ [34] ++ lit ": " ++ [34]
    ++ [92; 34] ++ lit "\n\u00e9\ud83d\ude00\\" ++ [34] ++ lit "}".
Proof. reflexivity. Qed.

(** A high and a low surrogate side by side, which no decoder yields,
    would come back as the one code point they encode. *)
Example surrogate_pair_is_joined :
  Json.loads_object (transcript_message [0xD83D; 0xDE00])
  = Some [(lit "transcript", [0x1F600])] /\
  Json.loads_object (transcript_message [0xD83D; 97])
  = Some [(lit "transcript", [0xD83D; 97])].
Proof. split; reflexivity. Qed.

(** A recognised text with a lone surrogate: [print] raises on it, and
    the exception leaves the handler before anything is sent. *)
Example lone_surrogate_run :
  encodable (recognized_line [0xD800]) = false /\
  trace_of (Script.handler 2 ws1 unprintable)
  = [Printed established_line; Received ws1 (Returns speech_hello);
     Recognition (audio_of speech_hello) (Returns [0xD800])] /\
  status_of (Script.handler 2 ws1 unprintable)
  = Stop (Raise UnicodeEncodeError).
Proof. repeat split. Qed.

Lemma C1_witness :
  chunks_on ws1 (trace_of (Script.handler 5 ws1 clear_speech))
  = [speech_hello; speech_world] /\
  recognitions (trace_of (Script.handler 5 ws1 clear_speech))
  = [(audio_of speech_hello, Returns (lit "hello"));
     (audio_of speech_world, Returns (lit "world"))] /\
  sent_on ws1 (trace_of (Script.handler 5 ws1 clear_speech))
  = [transcript_message (lit "hello"); transcript_message (lit "world")].
Proof.
  apply (C1_one_transcript_per_chunk_in_order
           Script.world Script.recv Script.recognize Script.send
           ws1 clear_speech (Script.mkWorld [] [] [])
           [(speech_hello, lit "hello"); (speech_world, lit "world")] 5%nat).
  - apply (hears_next Script.world Script.recv Script.recognize Script.send ws1
             clear_speech speech_hello
             (Script.mkWorld [(ws1, Returns speech_world)]
                             (Script.answers clear_speech)
                             (Script.wire clear_speech))
             (lit "hello")
             (Script.mkWorld [(ws1, Returns speech_world)]
                             [(speech_world, Returns (lit "world"))]
                             (Script.wire clear_speech))
             (Returns tt) clear_speech_rest);
      [reflexivity|reflexivity|reflexivity|reflexivity|].
    apply (hears_next Script.world Script.recv Script.recognize Script.send ws1
             clear_speech_rest speech_world
             (Script.mkWorld [] [(speech_world, Returns (lit "world"))]
                             [(ws1, Returns tt)])
             (lit "world")
             (Script.mkWorld [] [] [(ws1, Returns tt)])
             (Returns tt) (Script.mkWorld [] [] []));
      [reflexivity|reflexivity|reflexivity|reflexivity|].
    apply hears_nothing.
  - repeat constructor.
  - cbn. lia.
  - intros _ c H. discriminate H.
Defined.

(** The recogniser succeeds on the chunk, with a text that has a lone
    surrogate: the line logging it cannot be printed, the handler ends
    on [UnicodeEncodeError] and no message is sent for the chunk. *)
Lemma C1_counterexample :
  chunks_on ws1 (trace_of (Script.handler 3 ws1 unprintable)) = [speech_hello] /\
  recognitions (trace_of (Script.handler 3 ws1 unprintable))
  = [(audio_of speech_hello, Returns [0xD800])] /\
  sent_on ws1 (trace_of (Script.handler 3 ws1 unprintable)) = [] /\
  status_of (Script.handler 3 ws1 unprintable) = Stop (Raise UnicodeEncodeError).
Proof. repeat split. Qed.


Lemma C7_witness :
  replies (mkExchange speech_hello
             [(audio_of speech_hello, Returns (lit "hello"))]
             [transcript_message (lit "hello")]) <> [] /\
  exists text,
    heard (mkExchange speech_hello
             [(audio_of speech_hello, Returns (lit "hello"))]
             [transcript_message (lit "hello")])
    = [(audio_of speech_hello, Returns text)].
Proof.
  split; [discriminate|].
  destruct (C7_at_most_one_result_per_chunk
              Script.world Script.recv Script.recognize Script.send
              4%nat ws1 hello_silence_world) as (_ & Hall & _).
  apply Forall_inv in Hall. cbv beta in Hall.
  destruct Hall as [_ Honly]. apply Honly. discriminate.
Defined.


Lemma C5_witness :
  In (Sending ws1 (transcript_message (lit "hello")) (Raises ConnectionClosedError))
     (trace_of (Script.handler 2 ws1 peer_gone)) /\
  status_of (Script.handler 2 ws1 peer_gone) = Ret tt /\
  exists pre,
    trace_of (Script.handler 2 ws1 peer_gone)
    = pre ++ [Sending ws1 (transcript_message (lit "hello"))
                      (Raises ConnectionClosedError);
              Printed closed_line].
Proof.
  assert (Hin : In (Sending ws1 (transcript_message (lit "hello"))
                            (Raises ConnectionClosedError))
                   (trace_of (Script.handler 2 ws1 peer_gone)))
    by (cbn; do 4 right; left; reflexivity).
  split; [exact Hin|].
  exact (proj1 (C5_write_failure_ends_session_cleanly
                  Script.world Script.recv Script.recognize Script.send
                  2%nat ws1 peer_gone)
               _ ConnectionClosedError Hin eq_refl).
Defined.

Lemma C3_witness :
  (exists line tr,
     diagnostic UnknownValueError = Some line /\
     trace_of (Script.handler 2 ws1 silence_failed)
     = Printed established_line :: tr /\
     Script.handler 4 ws1 hello_silence_world =
       (Printed established_line
          :: [Received ws1 (Returns speech_hello);
              Recognition (audio_of speech_hello) (Returns (lit "hello"));
              Printed (recognized_line (lit "hello"));
              Sending ws1 (transcript_message (lit "hello")) (Returns tt)]
             ++ Received ws1 (Returns silence)
                :: Recognition (audio_of silence) (Raises UnknownValueError)
                :: Printed line :: tr,
        status_of (Script.handler 2 ws1 silence_failed),
        snd (Script.handler 2 ws1 silence_failed))) /\
  (exists line rest,
     diagnostic (RequestError "timed out") = Some line /\
     skipn 3 (trace_of (Script.handler 3 ws1 upstream_down))
     = Printed line :: rest /\
     match rest with
     | [] => status_of (Script.handler 3 ws1 upstream_down) = Stop Unfinished
     | ev :: _ => exists r, ev = Received ws1 r
     end) /\
  status_of (Script.handler 3 ws1 upstream_down) = Ret tt /\
  (exists pre ev e,
     raised_by ev = Some e /\ is_ConnectionClosed e = true /\
     (trace_of (Script.handler 3 ws1 upstream_down) = pre ++ [ev] \/
      trace_of (Script.handler 3 ws1 upstream_down)
      = pre ++ [ev; Printed closed_line])) /\
  Script.handler 2 ws1 text_frame =
    (Printed established_line
       :: [] ++ [Received ws1 (Returns (Text (lit "hi")));
                 Recognition (audio_of (Text (lit "hi"))) (Raises not_bytes)],
     Stop (Raise not_bytes), text_frame_failed).
Proof.
  destruct (C3_recognition_failure_does_not_end_session
              Script.world Script.recv Script.recognize Script.send ws1)
    as (Hgo & Hlogged & Hend & Hraised).
  split; [|split; [|split; [|split]]];
    [| | | |apply (Hraised 0%nat 1%nat text_frame [] text_frame
                     (Text (lit "hi")) text_frame_asked not_bytes
                     text_frame_failed);
            [apply goes_nowhere|reflexivity..]].
  - apply (Hgo 1%nat 2%nat hello_silence_world _ silence_next
               silence silence_asked UnknownValueError silence_failed).
    + apply (goes_further Script.world Script.recv Script.recognize Script.send ws1
               0%nat hello_silence_world speech_hello
               (Script.mkWorld
                  [(ws1, Returns silence); (ws1, Returns speech_world);
                   (ws1, Raises ConnectionClosedOK)]
                  (Script.answers hello_silence_world)
                  (Script.wire hello_silence_world))
               [Recognition (audio_of speech_hello) (Returns (lit "hello"));
                Printed (recognized_line (lit "hello"));
                Sending ws1 (transcript_message (lit "hello")) (Returns tt)]
               silence_next [] silence_next);
        [reflexivity|reflexivity|apply goes_nowhere].
    + reflexivity.
    + reflexivity.
    + left. reflexivity.
  - apply (Hlogged 3%nat upstream_down
             (firstn 2 (trace_of (Script.handler 3 ws1 upstream_down)))
             (audio_of garbled) (RequestError "timed out")).
    + reflexivity.
    + right. exists "timed out"%string. reflexivity.
  - reflexivity.
  - apply Hend. reflexivity.
Defined.

(** A session that ends with no transport closure: the recogniser
    raises [TypeError] on a text frame, the exception leaves the
    handler, and the chunk that the connection still had to deliver is
    never taken. *)
Lemma C3_counterexample :
  Script.handler 2 ws1 text_frame =
    ([Printed established_line; Received ws1 (Returns (Text (lit "hi")));
      Recognition (audio_of (Text (lit "hi"))) (Raises not_bytes)],
     Stop (Raise not_bytes),
     text_frame_failed) /\
  is_ConnectionClosed not_bytes = false /\
  Script.inbox text_frame_failed = [(ws1, Returns speech_world)].
Proof. repeat split. Qed.

Lemma C10_witness :
  Script.handler 1 ws1 text_frame =
    ([Printed established_line; Received ws1 (Returns (Text (lit "hi")));
      Recognition (audio_of (Text (lit "hi"))) (Raises not_bytes)],
     Stop (Raise not_bytes),
     text_frame_failed).
Proof.
  apply (C10_other_exceptions_escape_the_handler
           Script.world Script.recv Script.recognize Script.send
           0%nat ws1 text_frame (Text (lit "hi")) text_frame_asked).
  - reflexivity.
  - reflexivity.
  - reflexivity.
  - reflexivity.
Defined.

End Runs.

(** ** Sessions on the event loop *)

Ltac run_loop :=
  cbv beta iota zeta
      delta [bind print try_except ws_anext await ret raise resume fst snd];
  cbn [app]; settle_prints; cbv beta iota zeta; cbn [app].

Section EventLoopFacts.
Variable World : Type.
Variable ws_recv : conn -> World -> outcome frame * World.
Variable recognize_google : AudioData -> World -> outcome str * World.
Variable ws_send : conn -> str -> World -> outcome unit * World.
Local Abbreviation handler := (transcribe_handler ws_recv recognize_google ws_send).
Local Abbreviation steps := (session_steps ws_recv recognize_google ws_send).
Local Abbreviation loop := (event_loop ws_recv recognize_google ws_send).

(** The outer [try] around the loop is the loop of resumptions, each
    inside the [try]. *)
Lemma loop_as_resumptions fuel ws : forall w,
  try_except (async_for ws_recv recognize_google ws_send fuel ws)
    (fun e => if is_ConnectionClosed e
              then Some (print (lit "Connection for voice transcription closed."))
              else None) w
  = steps fuel ws w.
Proof.
  unfold steps.
  induction fuel as [|fuel IH]; intros w; [reflexivity|].
  cbn [async_for session_steps]. run_loop.
  destruct (ws_recv ws w) as [[c|e|] w1]; run_loop.
  - destruct (loop_body recognize_google ws_send ws c w1) as [[b sb] w2].
    destruct sb as [[]|[e| | |]]; run_loop; try reflexivity.
    + rewrite <- IH. run_loop.
      destruct (async_for ws_recv recognize_google ws_send fuel ws w2)
        as [[t s] w3].
      destruct s as [[]|[e| | |]]; run_loop;
        [ | destruct (is_ConnectionClosed e); run_loop | | | ];
        rewrite ?app_nil_r, <- ?app_assoc; reflexivity.
    + destruct (is_ConnectionClosed e); run_loop;
        rewrite ?app_nil_r; reflexivity.
  - destruct e; run_loop; reflexivity.
  - reflexivity.
Qed.

(** The handler is its opening line followed by resumptions: cutting a
    session at its [async for] suspensions loses nothing. *)
Lemma handler_as_resumptions fuel ws w :
  handler fuel ws w =
  bind (print (lit "Connection established for voice transcription."))
       (fun _ => steps fuel ws) w.
Proof.
  unfold handler, transcribe_handler, bind.
  destruct (print _ w) as [[tr [a|h]] w1];
    [rewrite loop_as_resumptions|]; reflexivity.
Qed.

(** A task stalled inside a plain call freezes the loop: whatever is
    ready after it is never run. *)
Lemma stalled_task_freezes_loop ws ready ended w tr w1 :
  existsb (Nat.eqb ws) ended = false ->
  resume ws_recv recognize_google ws_send ws w = (tr, Stop Stalled, w1) ->
  loop (ws :: ready) ended w = (tr, Stop Stalled, w1).
Proof.
  intros Hlive Hres. unfold loop. cbn [event_loop].
  rewrite Hlive, Hres. reflexivity.
Qed.

End EventLoopFacts.

Section Concurrency.
Import Samples.

(** C9, on the code.  Two sessions are open; the recognition request
    for the chunk of the first is never answered, the chunk of the
    second is clear speech.  When the loop resumes the second session
    first, that session answers its chunk.  When the loop resumes the
    first session first, the plain call to [recognize_google] keeps the
    loop's thread: whatever the loop had ready next, the trace ends in
    that call, and on the second connection no chunk is taken and no
    message is sent. *)
Theorem C9_stalled_recognition_freezes_other_sessions :
  sent_on ws2 (trace_of (Script.event_loop [ws2; ws1] [] stalled_neighbour))
  = [transcript_message (lit "world")] /\
  forall ready,
    Script.event_loop (ws1 :: ready) [] stalled_neighbour =
      ([Received ws1 (Returns garbled); Recognition (audio_of garbled) Never],
       Stop Stalled, stalled_for_good) /\
    chunks_on ws2
      (trace_of (Script.event_loop (ws1 :: ready) [] stalled_neighbour)) = [] /\
    sent_on ws2
      (trace_of (Script.event_loop (ws1 :: ready) [] stalled_neighbour)) = [].
Proof.
  split; [reflexivity|]. intros ready.
  assert (H : Script.event_loop (ws1 :: ready) [] stalled_neighbour =
              ([Received ws1 (Returns garbled);
                Recognition (audio_of garbled) Never],
               Stop Stalled, stalled_for_good)).
  { apply stalled_task_freezes_loop; reflexivity. }
  rewrite H. repeat split.
Qed.

End Concurrency.

(** ** The termination signal *)

Lemma deliver_sigterm_finished p :
  stop p <> PENDING -> on_sigterm p = Some stop_future ->
  deliver_sigterm p = (p, [InvalidStateError]).
Proof.
  intros Hstop Hreg. unfold deliver_sigterm, set_result. rewrite Hreg. cbn.
  destruct (stop p); congruence.
Qed.

Lemma react_keeps_main_blocked p x : main_blocked p -> main_blocked (react p x).
Proof.
  intros (Hreg & Hmain & Hanon & Hlisten). destruct x as [|c]; cbn.
  - unfold deliver_sigterm, set_result. rewrite Hreg. cbn.
    destruct (stop p); cbn; unfold main_blocked; cbn;
      rewrite ?Hmain; cbn; auto.
  - unfold accept. rewrite Hlisten. unfold main_blocked. cbn. auto.
Qed.

Lemma run_keeps_main_blocked xs : forall p,
  main_blocked p -> main_blocked (run_process p xs).
Proof.
  induction xs as [|x xs IH]; intros p Hp; cbn; [exact Hp|].
  apply IH, react_keeps_main_blocked, Hp.
Qed.

(** The line of line 34 can be printed. *)
Example running_line_encodable : encodable running_line = true.
Proof. reflexivity. Qed.

Lemma main_is_blocked : main_blocked main.
Proof. repeat split. Qed.

(** C4, on the code.  SIGTERM sets [stop], and that is all: [main] is
    suspended on another future, so it is not woken, the [async with]
    block is not left, and a client that connects afterwards is
    accepted.  No sequence of signals and connections changes this. *)
Theorem C4_sigterm_leaves_the_server_accepting :
  stop (run_process main [SIGTERM]) = FINISHED /\
  main_awaits (run_process main [SIGTERM]) = Some anonymous_future /\
  listening (run_process main [SIGTERM]) = true /\
  sessions (run_process main [SIGTERM; Connect 7%nat]) = [7%nat] /\
  forall xs c,
    listening (run_process main xs) = true /\
    main_awaits (run_process main xs) = Some anonymous_future /\
    sessions (run_process main (xs ++ [Connect c]))
    = sessions (run_process main xs) ++ [c].
Proof.
  repeat split; try reflexivity;
    destruct (run_keeps_main_blocked xs main main_is_blocked)
      as (Hreg & Hmain & Hanon & Hlisten); auto.
  unfold run_process. rewrite fold_left_app. cbn. unfold accept.
  fold (run_process main xs). now rewrite Hlisten.
Qed.

(** C6. Delivering SIGTERM twice leaves the process in the state one
    delivery leaves it in; and once [stop] is set, a delivery changes
    nothing in the process state: [set_result] raises
    [InvalidStateError] before touching the future, and the loop hands
    that exception to its exception handler instead of propagating
    it. *)
Theorem C6_second_sigterm_changes_nothing (p : process) :
  fst (deliver_sigterm (fst (deliver_sigterm p))) = fst (deliver_sigterm p) /\
  (on_sigterm p = Some stop_future -> stop p = FINISHED ->
   deliver_sigterm p = (p, [InvalidStateError]) /\ react p SIGTERM = p).
Proof.
  split.
  - unfold deliver_sigterm, set_result.
    destruct p as [st an [[|]|] li [[|]|] se]; destruct st, an; reflexivity.
  - intros Hreg Hstop.
    assert (H : deliver_sigterm p = (p, [InvalidStateError]))
      by (apply deliver_sigterm_finished; congruence).
    split; [exact H|]. cbn. now rewrite H.
Qed.

Lemma C6_witness :
  fst (deliver_sigterm (fst (deliver_sigterm (run_process main [SIGTERM]))))
  = fst (deliver_sigterm (run_process main [SIGTERM])) /\
  deliver_sigterm (run_process main [SIGTERM])
  = (run_process main [SIGTERM], [InvalidStateError]) /\
  react (run_process main [SIGTERM]) SIGTERM = run_process main [SIGTERM].
Proof.
  destruct (C6_second_sigterm_changes_nothing (run_process main [SIGTERM]))
    as [Hidem Hset].
  split; [exact Hidem|].
  apply Hset; reflexivity.
Defined.


(** * Further properties of the code *)

(** ** A session and its connection *)

Lemma iteration_on_conn ws c b s :
  iteration ws c b s -> forallb (on_conn ws) b = true.
Proof. destruct 1; cbn; rewrite ?Nat.eqb_refl; reflexivity. Qed.

Lemma loop_run_on_conn ws tr s :
  loop_run ws tr s -> forallb (on_conn ws) tr = true.
Proof.
  induction 1 as [| |e0 He0| |c b tr s Hit Hrun IH|c b h Hit];
    cbn; rewrite ?Nat.eqb_refl; try reflexivity.
  - rewrite forallb_app, IH, (iteration_on_conn _ _ _ _ Hit). reflexivity.
  - apply (iteration_on_conn _ _ _ _ Hit).
Qed.

Lemma only_prints_on_conn ws post :
  only_prints post -> forallb (on_conn ws) post = true.
Proof.
  unfold only_prints.
  induction post as [|[l|ws' r|au r|ws' m r] post IH]; cbn; intros H;
    try discriminate; auto.
Qed.

Lemma elsewhere_nothing ws ws' tr :
  forallb (on_conn ws) tr = true -> ws' <> ws ->
  sent_on ws' tr = [] /\ chunks_on ws' tr = [].
Proof.
  intros Hall Hne. induction tr as [|ev tr IH]; [split; reflexivity|].
  cbn in Hall. apply andb_prop in Hall as [Hev Hall].
  destruct (IH Hall) as [IHs IHc].
  destruct ev as [l|c r|au r|c m r]; cbn in Hev |- *; auto.
  - apply Nat.eqb_eq in Hev. subst c.
    replace (Nat.eqb ws ws') with false
      by (symmetry; apply Nat.eqb_neq; congruence).
    destruct r; auto.
  - apply Nat.eqb_eq in Hev. subst c.
    replace (Nat.eqb ws ws') with false
      by (symmetry; apply Nat.eqb_neq; congruence).
    auto.
Qed.

Section OwnConnection.
Variable World : Type.
Variable ws_recv : conn -> World -> outcome frame * World.
Variable recognize_google : AudioData -> World -> outcome str * World.
Variable ws_send : conn -> str -> World -> outcome unit * World.

Local Abbreviation handler := (transcribe_handler ws_recv recognize_google ws_send).

(** X4. A session handler touches no connection but the one it was
    given: in every run, every receive and every send is on
    [websocket], so on any other connection it takes no chunk and
    sends no message. *)
Theorem handler_touches_only_its_connection
  (fuel : nat) (ws ws' : conn) (w : World) :
  forallb (on_conn ws) (trace_of (handler fuel ws w)) = true /\
  (ws' <> ws ->
   sent_on ws' (trace_of (handler fuel ws w)) = [] /\
   chunks_on ws' (trace_of (handler fuel ws w)) = []).
Proof.
  destruct (handler_shape World ws_recv recognize_google ws_send fuel ws w)
    as (tr & s & Hrun & Htr & _).
  assert (Hall : forallb (on_conn ws) (trace_of (handler fuel ws w)) = true).
  { rewrite Htr. cbn [forallb on_conn conn_of]. rewrite forallb_app.
    rewrite (loop_run_on_conn _ _ _ Hrun).
    now rewrite (only_prints_on_conn ws _ (closing_only_prints s)). }
  split; [exact Hall|]. intros Hne. now apply (elsewhere_nothing ws).
Qed.

End OwnConnection.

(** ** The transcript message *)

(** X6. On text strings the transcript message determines the text:
    two recognised texts that differ are never sent as the same
    message. *)
Theorem transcript_message_injective (t1 t2 : str) :
  text_string t1 -> text_string t2 ->
  transcript_message t1 = transcript_message t2 -> t1 = t2.
Proof.
  intros H1 H2 Heq.
  pose proof (JsonFacts.loads_dumps_single _ _ lit_transcript_text H1) as L1.
  pose proof (JsonFacts.loads_dumps_single _ _ lit_transcript_text H2) as L2.
  unfold transcript_message in Heq. rewrite Heq, L2 in L1.
  now injection L1.
Qed.

Lemma format_04x_length n : length (Json.format_04x n) = 4%nat.
Proof. reflexivity. Qed.

Lemma replace_length c : (length (Json.replace c) <= 12)%nat.
Proof.
  unfold Json.replace, Json.ESCAPE_DCT.
  repeat match goal with
         | |- context [if ?b then _ else _] => destruct b
         end; cbn [length app]; rewrite ?length_app, ?format_04x_length;
    cbn [length]; rewrite ?length_app, ?format_04x_length; cbn [length]; lia.
Qed.

Lemma escape_length_upper s : (length (Json.escape s) <= 12 * length s)%nat.
Proof.
  induction s as [|c s IH]; [cbn; lia|].
  unfold Json.escape; cbn [flat_map]; fold (Json.escape s).
  rewrite length_app. cbn [length].
  destruct (Json.ESCAPE_ASCII c); [pose proof (replace_length c)|cbn [length]]; lia.
Qed.

(** X7. The transcript message is the text with eighteen characters of
    JSON around it and every character of the text written as one to
    twelve characters: it is never shorter than the text plus eighteen,
    and never longer than twelve times the text plus eighteen. *)
Theorem transcript_message_length (text : str) :
  length (transcript_message text) = (18 + length (Json.escape text))%nat /\
  (length text + 18 <= length (transcript_message text))%nat /\
  (length (transcript_message text) <= 12 * length text + 18)%nat.
Proof.
  assert (H : length (transcript_message text)
              = (18 + length (Json.escape text))%nat).
  { unfold transcript_message. rewrite JsonFacts.dumps_single.
    unfold Json.py_encode_basestring_ascii.
    repeat first [rewrite length_app | progress cbn [length app]].
    change (length (Json.escape (lit "transcript"))) with 10%nat. lia. }
  split; [exact H|]. rewrite H.
  pose proof (JsonFacts.escape_length text).
  pose proof (escape_length_upper text). lia.
Qed.

(** ** Repeated termination signals *)

Lemma sigterm_when_set p :
  main_blocked p -> stop p = FINISHED ->
  react p SIGTERM = p /\ snd (deliver_sigterm p) = [InvalidStateError].
Proof.
  intros (Hreg & _) Hstop.
  assert (H : deliver_sigterm p = (p, [InvalidStateError]))
    by (apply deliver_sigterm_finished; congruence).
  cbn. now rewrite H.
Qed.

Lemma sigterm_when_pending p :
  main_blocked p -> stop p = PENDING ->
  stop (react p SIGTERM) = FINISHED /\ snd (deliver_sigterm p) = [].
Proof.
  intros (Hreg & Hmain & _) Hstop. cbn.
  unfold deliver_sigterm, set_result. rewrite Hreg. cbn. rewrite Hstop.
  cbn. rewrite Hmain. cbn. auto.
Qed.

Lemma connect_keeps_stop p c : stop (react p (Connect c)) = stop p.
Proof. cbn. unfold accept. destruct (listening p); reflexivity. Qed.

Lemma signals_once_set xs : forall p,
  main_blocked p -> stop p = FINISHED ->
  stop (run_process p xs) = FINISHED /\
  errors_logged p xs = repeat InvalidStateError (sigterms xs).
Proof.
  induction xs as [|[|c] xs IH]; intros p Hp Hstop; cbn [sigterms errors_logged].
  - split; [exact Hstop|reflexivity].
  - destruct (sigterm_when_set p Hp Hstop) as [Hsame Hlog].
    unfold run_process. cbn [fold_left]. fold (run_process (react p SIGTERM) xs).
    rewrite Hlog, Hsame. destruct (IH p Hp Hstop) as [H1 H2].
    split; [exact H1|]. now rewrite H2.
  - unfold run_process. cbn [fold_left].
    fold (run_process (react p (Connect c)) xs).
    apply IH; [now apply react_keeps_main_blocked|].
    now rewrite connect_keeps_stop.
Qed.

Lemma signals_from_pending xs : forall p,
  main_blocked p -> stop p = PENDING ->
  stop (run_process p xs)
  = match sigterms xs with O => PENDING | S _ => FINISHED end /\
  errors_logged p xs = repeat InvalidStateError (sigterms xs - 1).
Proof.
  induction xs as [|[|c] xs IH]; intros p Hp Hstop; cbn [sigterms errors_logged].
  - split; [exact Hstop|reflexivity].
  - destruct (sigterm_when_pending p Hp Hstop) as [Hset Hlog].
    unfold run_process. cbn [fold_left]. fold (run_process (react p SIGTERM) xs).
    rewrite Hlog.
    destruct (signals_once_set xs (react p SIGTERM)
                (react_keeps_main_blocked p SIGTERM Hp) Hset) as [H1 H2].
    split; [exact H1|]. rewrite H2. cbn [app]. f_equal. lia.
  - unfold run_process. cbn [fold_left].
    fold (run_process (react p (Connect c)) xs).
    apply IH; [now apply react_keeps_main_blocked|].
    now rewrite connect_keeps_stop.
Qed.

(** X8. Whatever the signals and connections that reach the running
    server, [stop] is finished exactly when at least one SIGTERM was
    delivered, and every SIGTERM after the first makes the callback
    raise [InvalidStateError]: with [n] deliveries the loop's exception
    handler is called [n - 1] times. *)
Theorem repeated_sigterm_is_reported (xs : list stimulus) :
  stop (run_process main xs)
  = match sigterms xs with O => PENDING | S _ => FINISHED end /\
  errors_logged main xs = repeat InvalidStateError (sigterms xs - 1).
Proof. apply signals_from_pending; [apply main_is_blocked|reflexivity]. Qed.

(** ** The ways a session ends *)

Lemma recognized_is_not_closed text : recognized_line text <> closed_line.
Proof. discriminate. Qed.

Lemma diagnostic_is_not_closed e line :
  diagnostic e = Some line -> line <> closed_line.
Proof.
  destruct e; cbn; intros H; try discriminate; injection H as <-; discriminate.
Qed.

Lemma iteration_prints ws c b s line :
  iteration ws c b s -> In (Printed line) b -> line <> closed_line.
Proof.
  intros Hit Hin.
  destruct Hit; cbn in Hin;
    repeat match goal with
           | H : _ \/ _ |- _ => destruct H as [H|H]
           | H : False |- _ => destruct H
           | H : Printed _ = Printed _ |- _ => injection H as <-
           | H : _ = Printed _ |- _ => discriminate H
           end;
    first [ apply recognized_is_not_closed
          | eapply diagnostic_is_not_closed; eassumption ].
Qed.

(** The loop never prints the closing line itself. *)
Lemma loop_run_prints ws tr s line :
  loop_run ws tr s -> In (Printed line) tr -> line <> closed_line.
Proof.
  induction 1 as [| |e0 He0| |c b tr s Hit Hrun IH|c b h Hit]; intros Hin.
  - destruct Hin.
  - destruct Hin as [H|[]]; discriminate.
  - destruct Hin as [H|[]]; discriminate.
  - destruct Hin as [H|[]]; discriminate.
  - destruct Hin as [H|Hin]; [discriminate|].
    apply in_app_or in Hin as [Hin|Hin]; [|now apply IH].
    now apply (iteration_prints _ _ _ _ _ Hit).
  - destruct Hin as [H|Hin]; [discriminate|].
    now apply (iteration_prints _ _ _ _ _ Hit).
Qed.

Lemma iteration_no_receive ws c b s ws' r :
  iteration ws c b s -> ~ In (Received ws' r) b.
Proof.
  intros Hit Hin.
  destruct Hit; cbn in Hin;
    repeat match goal with
           | H : _ \/ _ |- _ => destruct H as [H|H]
           | H : False |- _ => destruct H
           | H : _ = Received _ _ |- _ => discriminate H
           end.
Qed.

(** A loop that saw the end of the iteration returned. *)
Lemma loop_run_graceful ws tr s ws' :
  loop_run ws tr s -> In (Received ws' (Raises ConnectionClosedOK)) tr ->
  s = Ret tt.
Proof.
  induction 1 as [| |e0 He0| |c b tr s Hit Hrun IH|c b h Hit]; intros Hin.
  - destruct Hin.
  - reflexivity.
  - destruct Hin as [H|[]]. injection H as _ ->. congruence.
  - destruct Hin as [H|[]]. discriminate.
  - destruct Hin as [H|Hin]; [discriminate|].
    apply in_app_or in Hin as [Hin|Hin]; [|now apply IH].
    now apply (iteration_no_receive _ _ _ _ _ _ Hit) in Hin.
  - destruct Hin as [H|Hin]; [discriminate|].
    now apply (iteration_no_receive _ _ _ _ _ _ Hit) in Hin.
Qed.

Section Endings.
Variable World : Type.
Variable ws_recv : conn -> World -> outcome frame * World.
Variable recognize_google : AudioData -> World -> outcome str * World.
Variable ws_send : conn -> str -> World -> outcome unit * World.

Local Abbreviation handler := (transcribe_handler ws_recv recognize_google ws_send).

(** X1. A session whose receive reports a normal closure
    ([ConnectionClosedOK], which ends the [async for] iteration) returns
    right there: that receive is the last event of the run, and the
    closing line is not printed. *)
Theorem graceful_close_returns_silently (fuel : nat) (ws : conn) (w : World) :
  In (Received ws (Raises ConnectionClosedOK)) (trace_of (handler fuel ws w)) ->
  status_of (handler fuel ws w) = Ret tt /\
  (exists pre,
     trace_of (handler fuel ws w)
     = pre ++ [Received ws (Raises ConnectionClosedOK)]) /\
  ~ In (Printed closed_line) (trace_of (handler fuel ws w)).
Proof.
  intros Hin.
  destruct (handler_shape World ws_recv recognize_google ws_send fuel ws w)
    as (tr & s & Hrun & Htr & Hst).
  rewrite Htr in Hin |- *. rewrite Hst.
  apply in_handler_trace in Hin;
    [|apply closing_only_prints|reflexivity].
  pose proof (loop_run_graceful ws tr s ws Hrun Hin) as ->.
  cbn [closing fst snd]. rewrite app_nil_r.
  destruct (loop_run_end ws tr Hrun) as [pre Hpre].
  split; [reflexivity|]. split.
  - exists (Printed established_line :: pre). cbn. now rewrite Hpre.
  - intros [H|H].
    + discriminate H.
    + now apply (loop_run_prints ws tr _ _ Hrun H).
Qed.

(** X2. The closing line is printed exactly when the session was ended
    by a [ConnectionClosed] exception reaching the outer [except]
    clause: then the handler returns, the line is the last event,
    directly after the call that raised, and it is printed nowhere
    else. *)
Theorem closing_line_marks_a_raised_closure
  (fuel : nat) (ws : conn) (w : World) :
  In (Printed closed_line) (trace_of (handler fuel ws w)) <->
  exists pre ev e,
    trace_of (handler fuel ws w) = pre ++ [ev; Printed closed_line] /\
    raised_by ev = Some e /\ is_ConnectionClosed e = true /\
    ev <> Received ws (Raises ConnectionClosedOK) /\
    ~ In (Printed closed_line) pre /\
    status_of (handler fuel ws w) = Ret tt.
Proof.
  split.
  - intros Hin.
    destruct (handler_shape World ws_recv recognize_google ws_send fuel ws w)
      as (tr & s & Hrun & Htr & Hst).
    rewrite Htr in Hin |- *. rewrite Hst.
    assert (Hloop : ~ In (Printed closed_line) (Printed established_line :: tr)).
    { intros [H|H].
      - discriminate H.
      - now apply (loop_run_prints ws tr _ _ Hrun H). }
    destruct Hin as [H|Hin];
      [discriminate H|].
    apply in_app_or in Hin as [Hin|Hin];
      [now apply (loop_run_prints ws tr _ _ Hrun) in Hin|].
    destruct s as [[]|[e| | |]]; cbn in Hin; try contradiction.
    unfold closing. destruct (is_ConnectionClosed e) eqn:Hcc;
      cbn in Hin; [|contradiction]. cbn [fst snd].
    destruct (loop_run_closed ws tr e Hrun Hcc) as (pre & ev & Hpre & Hev).
    exists (Printed established_line :: pre), ev, e.
    subst tr. repeat split; auto.
    + cbn. now rewrite <- app_assoc.
    + intros ->.
      assert (Habs : Stop (Raise e) = @Ret unit tt)
        by (apply (loop_run_graceful ws _ _ ws Hrun), in_or_app; right; now left).
      discriminate.
    + intros H. apply Hloop. cbn in H |- *.
      destruct H as [H|H]; [now left|right; apply in_or_app; now left].
  - intros (pre & ev & e & -> & _). apply in_or_app. right. right. now left.
Qed.

(** X3. The handler never lets a [ConnectionClosed] out.  When it ends
    with an exception, either that exception was raised by the last
    call the session made, and if that call was the recognition request
    or the send it is neither [UnknownValueError] nor [RequestError];
    or the exception is the [UnicodeEncodeError] of the [print] that
    logs a recognised text the console cannot encode, and the last
    call of the session is the recognition request that returned that
    text, for the chunk received just before. *)
Theorem escaping_exception_is_unhandled
  (fuel : nat) (ws : conn) (w : World) (e : exn) :
  status_of (handler fuel ws w) = Stop (Raise e) ->
  is_ConnectionClosed e = false /\
  ((exists pre ev,
      trace_of (handler fuel ws w) = pre ++ [ev] /\
      raised_by ev = Some e /\
      (is_body_call ev = true -> diagnostic e = None)) \/
   (e = UnicodeEncodeError /\
    exists pre c text,
      trace_of (handler fuel ws w)
      = pre ++ [Received ws (Returns c);
                Recognition (audio_of c) (Returns text)] /\
      encodable (recognized_line text) = false)).
Proof.
  intros Hstatus.
  destruct (handler_shape World ws_recv recognize_google ws_send fuel ws w)
    as (tr & s & Hrun & Htr & Hst).
  rewrite Htr. rewrite Hst in Hstatus.
  destruct s as [[]|[e0| | |]]; cbn in Hstatus; try discriminate.
  unfold closing in *. destruct (is_ConnectionClosed e0) eqn:Hcc;
    cbn in Hstatus |- *; [discriminate|].
  injection Hstatus as ->. split; [exact Hcc|].
  rewrite app_nil_r.
  destruct (loop_run_raise ws tr e Hrun)
    as [(pre & ev & -> & Hev & Hbody)|(-> & pre & c & text & -> & Henc)].
  - left. exists (Printed established_line :: pre), ev. now repeat split.
  - right. split; [reflexivity|].
    exists (Printed established_line :: pre), c, text. now split.
Qed.

End Endings.

(** ** The order of the steps within an iteration *)

Section Steps.
Variable World : Type.
Variable ws_recv : conn -> World -> outcome frame * World.
Variable recognize_google : AudioData -> World -> outcome str * World.
Variable ws_send : conn -> str -> World -> outcome unit * World.

Local Abbreviation handler := (transcribe_handler ws_recv recognize_google ws_send).

(** X9. Within an iteration the steps come in the order of the source:
    every message passed to [websocket.send] directly follows the line
    that logs its text, which directly follows the recognition request
    that returned that text, which directly follows the receive of the
    chunk the request was made for; and the send is on the connection
    the chunk came from. *)
Theorem send_follows_recognition_and_log
  (fuel : nat) (ws ws' : conn) (w : World)
  (pre : list event) (m : str) (r : outcome unit) (post : list event) :
  trace_of (handler fuel ws w) = pre ++ Sending ws' m r :: post ->
  exists pre0 c text,
    pre = pre0 ++ [Received ws (Returns c);
                   Recognition (audio_of c) (Returns text);
                   Printed (recognized_line text)] /\
    m = transcript_message text /\ ws' = ws.
Proof.
  intros Htr.
  destruct (handler_body_call World ws_recv recognize_google ws_send
              fuel ws w pre _ post Htr eq_refl)
    as (pre0 & c & b & s' & before & after & rest & Hit & Hb & Hpre & _).
  destruct (iteration_send_context _ _ _ _ _ _ _ _ _ Hit Hb)
    as (text & -> & -> & ->).
  exists pre0, c, text. now repeat split.
Qed.


End Steps.

(** ** Sessions side by side *)

Lemma recognitions_in a r tr :
  In (a, r) (recognitions tr) -> In (Recognition a r) tr.
Proof.
  induction tr as [|[l|ws' r'|au r'|ws' m r'] tr IH]; cbn; auto.
  intros [H|H]; [left; now injection H as -> ->|right; auto].
Qed.

Lemma turn_on_conn ws tr : turn ws tr -> forallb (on_conn ws) tr = true.
Proof.
  destruct 1 as [r post Hr Hpost|c b s post Hit Hpost];
    cbn [forallb on_conn conn_of]; rewrite Nat.eqb_refl; cbn [andb].
  - now apply only_prints_on_conn.
  - rewrite forallb_app, (iteration_on_conn _ _ _ _ Hit).
    now apply only_prints_on_conn.
Qed.

(** What a trace must show for each message sent on a connection: a
    chunk received on that connection, and a recognition request for
    the audio of that chunk which returned the text of the message. *)
Lemma turn_answers_own_chunk ws tr : turn ws tr ->
  forall c m, In m (sent_on c tr) ->
  exists chunk text,
    In chunk (chunks_on c tr) /\
    In (Recognition (audio_of chunk) (Returns text)) tr /\
    m = transcript_message text.
Proof.
  intros Hturn c m Hin.
  destruct (Nat.eq_dec c ws) as [->|Hne].
  - destruct Hturn as [r post Hr Hpost|ch b s post Hit Hpost].
    + destruct (only_prints_quiet ws post Hpost) as (_ & Hsent & _).
      cbn in Hin. now rewrite Hsent in Hin.
    + destruct (only_prints_quiet ws post Hpost) as (_ & Hsent & _).
      destruct (iteration_digest _ _ _ _ Hit) as (r & _ & _ & Hrec & Hb).
      cbn [sent_on] in Hin. rewrite sent_on_app, Hsent, app_nil_r, Hb in Hin.
      destruct r as [text| |]; cbn in Hin; try contradiction.
      destruct (encodable (recognized_line text)); cbn in Hin;
        [|contradiction].
      destruct Hin as [<-|[]]. exists ch, text. repeat split.
      * cbn. rewrite Nat.eqb_refl. now left.
      * right. apply in_or_app. left. apply recognitions_in.
        rewrite Hrec. now left.
  - destruct (elsewhere_nothing ws c tr (turn_on_conn ws tr Hturn) Hne)
      as [Hsent _].
    now rewrite Hsent in Hin.
Qed.

Lemma chunks_on_in_app ws a b chunk :
  In chunk (chunks_on ws a) \/ In chunk (chunks_on ws b) ->
  In chunk (chunks_on ws (a ++ b)).
Proof. rewrite chunks_on_app. apply in_or_app. Qed.

Section SideBySide.
Variable World : Type.
Variable ws_recv : conn -> World -> outcome frame * World.
Variable recognize_google : AudioData -> World -> outcome str * World.
Variable ws_send : conn -> str -> World -> outcome unit * World.

Local Abbreviation loop := (event_loop ws_recv recognize_google ws_send).

Lemma resume_shape ws w :
  turn ws (trace_of (resume ws_recv recognize_google ws_send ws w)).
Proof.
  unfold trace_of. run_loop.
  destruct (ws_recv ws w) as [[c|e|] w1]; run_loop.
  - pose proof (loop_body_shape World recognize_google ws_send ws c w1) as Hb.
    unfold trace_of, status_of in Hb.
    destruct (loop_body recognize_google ws_send ws c w1) as [[b sb] w2].
    cbn [fst snd] in Hb.
    assert (Hplain : turn ws (Received ws (Returns c) :: b))
      by (rewrite <- (app_nil_r b); now apply (turn_chunk ws c b sb [])).
    destruct sb as [[]|[e| | |]]; run_loop; try exact Hplain.
    + rewrite app_nil_r. exact Hplain.
    + destruct (is_ConnectionClosed e); run_loop; [|exact Hplain].
      now apply (turn_chunk ws c b (Stop (Raise e))).
  - destruct e; run_loop;
      apply turn_no_chunk; try reflexivity; discriminate.
  - apply turn_no_chunk; [discriminate|reflexivity].
Qed.

(** X5. However the event loop interleaves the sessions, no message is
    delivered across: every message sent on a connection is the
    transcript of a text that a recognition request returned for the
    audio of a chunk received on that same connection. *)
Theorem no_cross_delivery (ready ended : list conn) (w : World)
  (c : conn) (m : str) :
  In m (sent_on c (trace_of (loop ready ended w))) ->
  exists chunk text,
    In chunk (chunks_on c (trace_of (loop ready ended w))) /\
    In (Recognition (audio_of chunk) (Returns text))
       (trace_of (loop ready ended w)) /\
    m = transcript_message text.
Proof.
  revert ended w.
  induction ready as [|ws ready IH]; intros ended w Hin; [destruct Hin|].
  cbn [event_loop] in Hin |- *.
  destruct (existsb (Nat.eqb ws) ended); [now apply IH|].
  pose proof (resume_shape ws w) as Hturn. unfold trace_of in Hturn, Hin |- *.
  destruct (resume ws_recv recognize_google ws_send ws w) as [[tr1 s1] w1].
  cbn [fst] in Hturn.
  assert (Hjoin : forall ended' ,
    In m (sent_on c (tr1 ++ fst (fst (loop ready ended' w1)))) ->
    exists chunk text,
      In chunk (chunks_on c (tr1 ++ fst (fst (loop ready ended' w1)))) /\
      In (Recognition (audio_of chunk) (Returns text))
         (tr1 ++ fst (fst (loop ready ended' w1))) /\
      m = transcript_message text).
  { intros ended' H. rewrite sent_on_app in H.
    apply in_app_or in H as [H|H].
    - destruct (turn_answers_own_chunk ws tr1 Hturn c m H)
        as (chunk & text & H1 & H2 & H3).
      exists chunk, text. repeat split; auto.
      + apply chunks_on_in_app. now left.
      + apply in_or_app. now left.
    - destruct (IH ended' w1 H) as (chunk & text & H1 & H2 & H3).
      exists chunk, text. repeat split; auto.
      + apply chunks_on_in_app. now right.
      + apply in_or_app. now right. }
  destruct s1 as [[|]|[e| | |]];
    try (specialize (Hjoin ended);
         destruct (loop ready ended w1) as [[tr2 s2] w2];
         cbn [fst] in *; now apply Hjoin);
    try (specialize (Hjoin (ws :: ended));
         destruct (loop ready (ws :: ended) w1) as [[tr2 s2] w2];
         cbn [fst] in *; now apply Hjoin).
  cbn [fst] in *. now apply (turn_answers_own_chunk ws tr1 Hturn).
Qed.

End SideBySide.

(** ** Concrete runs for the further properties *)

Module MoreRuns.
Import Samples.

(** A high and a low surrogate side by side make the same message as
    the code point they encode: off text strings the message does not
    determine the text. *)
Example joined_pair_collides :
  transcript_message [0xD83D; 0xDE00] = transcript_message [0x1F600].
Proof. reflexivity. Qed.

Lemma graceful_close_witness :
  In (Received ws1 (Raises ConnectionClosedOK))
     (trace_of (Script.handler 4 ws1 hello_silence_world)) /\
  status_of (Script.handler 4 ws1 hello_silence_world) = Ret tt /\
  (exists pre,
     trace_of (Script.handler 4 ws1 hello_silence_world)
     = pre ++ [Received ws1 (Raises ConnectionClosedOK)]) /\
  ~ In (Printed closed_line)
       (trace_of (Script.handler 4 ws1 hello_silence_world)).
Proof.
  assert (Hin : In (Received ws1 (Raises ConnectionClosedOK))
                   (trace_of (Script.handler 4 ws1 hello_silence_world)))
    by (cbn; do 12 right; left; reflexivity).
  split; [exact Hin|].
  exact (graceful_close_returns_silently
           Script.world Script.recv Script.recognize Script.send
           4%nat ws1 hello_silence_world Hin).
Defined.

Lemma closing_line_witness :
  In (Printed closed_line) (trace_of (Script.handler 2 ws1 peer_gone)) /\
  exists pre ev e,
    trace_of (Script.handler 2 ws1 peer_gone) = pre ++ [ev; Printed closed_line] /\
    raised_by ev = Some e /\ is_ConnectionClosed e = true /\
    ev <> Received ws1 (Raises ConnectionClosedOK) /\
    ~ In (Printed closed_line) pre /\
    status_of (Script.handler 2 ws1 peer_gone) = Ret tt.
Proof.
  assert (Hin : In (Printed closed_line)
                   (trace_of (Script.handler 2 ws1 peer_gone)))
    by (cbn; do 5 right; left; reflexivity).
  split; [exact Hin|].
  exact (proj1 (closing_line_marks_a_raised_closure
                  Script.world Script.recv Script.recognize Script.send
                  2%nat ws1 peer_gone) Hin).
Defined.

Lemma escaping_exception_witness :
  status_of (Script.handler 2 ws1 unprintable)
  = Stop (Raise UnicodeEncodeError) /\
  is_ConnectionClosed UnicodeEncodeError = false /\
  ((exists pre ev,
      trace_of (Script.handler 2 ws1 unprintable) = pre ++ [ev] /\
      raised_by ev = Some UnicodeEncodeError /\
      (is_body_call ev = true -> diagnostic UnicodeEncodeError = None)) \/
   (UnicodeEncodeError = UnicodeEncodeError /\
    exists pre c text,
      trace_of (Script.handler 2 ws1 unprintable)
      = pre ++ [Received ws1 (Returns c);
                Recognition (audio_of c) (Returns text)] /\
      encodable (recognized_line text) = false)).
Proof.
  split; [reflexivity|].
  apply (escaping_exception_is_unhandled
           Script.world Script.recv Script.recognize Script.send
           2%nat ws1 unprintable UnicodeEncodeError).
  reflexivity.
Defined.

Lemma own_connection_witness :
  ws2 <> ws1 /\
  sent_on ws2 (trace_of (Script.handler 4 ws1 hello_silence_world)) = [] /\
  chunks_on ws2 (trace_of (Script.handler 4 ws1 hello_silence_world)) = [].
Proof.
  assert (Hne : ws2 <> ws1) by discriminate.
  split; [exact Hne|].
  exact (proj2 (handler_touches_only_its_connection
                  Script.world Script.recv Script.recognize Script.send
                  4%nat ws1 ws2 hello_silence_world) Hne).
Defined.

Lemma no_cross_delivery_witness :
  In (transcript_message (lit "world"))
     (sent_on ws2 (trace_of (Script.event_loop [ws2; ws1] [] stalled_neighbour))) /\
  exists chunk text,
    In chunk
       (chunks_on ws2 (trace_of (Script.event_loop [ws2; ws1] [] stalled_neighbour))) /\
    In (Recognition (audio_of chunk) (Returns text))
       (trace_of (Script.event_loop [ws2; ws1] [] stalled_neighbour)) /\
    transcript_message (lit "world") = transcript_message text.
Proof.
  assert (Hin : In (transcript_message (lit "world"))
                   (sent_on ws2
                      (trace_of (Script.event_loop [ws2; ws1] []
                                   stalled_neighbour))))
    by (left; reflexivity).
  split; [exact Hin|].
  exact (no_cross_delivery
           Script.world Script.recv Script.recognize Script.send
           [ws2; ws1] [] stalled_neighbour ws2 _ Hin).
Defined.

Lemma hello_is_text : text_string (lit "hello").
Proof.
  split; [|reflexivity]. unfold lit. cbn.
  repeat (constructor; [unfold code_point, of_ascii; cbn; lia|]).
  constructor.
Defined.

Lemma injective_witness :
  text_string (lit "hello") /\
  transcript_message (lit "hello") = transcript_message (lit "hello") /\
  lit "hello" = lit "hello".
Proof.
  split; [exact hello_is_text|]. split; [reflexivity|].
  exact (transcript_message_injective (lit "hello") (lit "hello")
           hello_is_text hello_is_text eq_refl).
Defined.

Lemma send_order_witness :
  trace_of (Script.handler 1 ws1 clear_speech)
  = [Printed established_line; Received ws1 (Returns speech_hello);
     Recognition (audio_of speech_hello) (Returns (lit "hello"));
     Printed (recognized_line (lit "hello"))]
    ++ Sending ws1 (transcript_message (lit "hello")) (Returns tt) :: [] /\
  exists pre0 c text,
    [Printed established_line; Received ws1 (Returns speech_hello);
     Recognition (audio_of speech_hello) (Returns (lit "hello"));
     Printed (recognized_line (lit "hello"))]
    = pre0 ++ [Received ws1 (Returns c);
               Recognition (audio_of c) (Returns text);
               Printed (recognized_line text)] /\
    transcript_message (lit "hello") = transcript_message text /\ ws1 = ws1.
Proof.
  assert (Htr : trace_of (Script.handler 1 ws1 clear_speech)
                = [Printed established_line; Received ws1 (Returns speech_hello);
                   Recognition (audio_of speech_hello) (Returns (lit "hello"));
                   Printed (recognized_line (lit "hello"))]
                  ++ Sending ws1 (transcript_message (lit "hello")) (Returns tt)
                     :: [])
    by reflexivity.
  split; [exact Htr|].
  exact (send_follows_recognition_and_log
           Script.world Script.recv Script.recognize Script.send
           1%nat ws1 ws1 clear_speech _ _ _ _ Htr).
Defined.


End MoreRuns.
